(** * Compile-time type names: a model of [type-name.hpp]

    The header derives the printed name of a type [T] from the
    function-signature literal the compiler substitutes for
    [__PRETTY_FUNCTION__] / [__FUNCSIG__].  Everything in it is a
    [constexpr] computation over [std::size_t] counters and fixed-capacity
    character arrays.  The model below keeps that shape:

    - [std::size_t] is [Z] with the wrap-around modulo [2^64] written out;
    - [fixed_string_t<N>] is a record with its capacity, its array
      ([list ascii], read and written by index) and its [size_] member;
    - an operation the constant evaluator rejects (division by zero, an
      array access outside the array, [#error]) is an [Err] result: the
      program does not build;
    - every loop is a [Fixpoint] over a budget of iterations, and running
      out of budget is an [Err] of its own, shown below not to happen on
      well-formed strings. *)

From Stdlib Require Import ZArith Ascii String Lia.
From stdpp Require Import base list.

Open Scope Z_scope.

(** ** [std::size_t] *)

Definition SIZE_MOD : Z := 2 ^ 64.

Definition wrap (z : Z) : Z := z mod SIZE_MOD.

(** [static constexpr std::size_t npos = (std::size_t)(-1);] *)
Definition npos : Z := wrap (-1).

(** ** Outcome of a constant evaluation *)

Inductive build_error : Set :=
| DivisionByZero
| OutOfBounds
| UnsupportedCompiler
| LoopBudget.

Inductive result (A : Type) : Type :=
| Ok (a : A)
| Err (e : build_error).

Arguments Ok {A} a.
Arguments Err {A} e.

Definition bind {A B : Type} (m : result A) (k : A -> result B) : result B :=
  match m with
  | Ok a => k a
  | Err e => Err e
  end.

Notation "x <- m ; k" := (bind m (fun x => k))
  (at level 20, m at level 100, k at level 200).
Notation "' p <- m ; k" := (bind m (fun x => match x with p => k end))
  (at level 20, p pattern, m at level 100, k at level 200).

(** Unsigned division; a zero divisor is not a constant expression. *)
Definition sz_div (a b : Z) : result Z :=
  if b =? 0 then Err DivisionByZero else Ok (a / b).

(** ** Characters *)

Definition NUL : ascii := "000"%char.
Definition SPACE : ascii := " "%char.
Definition COLON : ascii := ":"%char.

#[global] Instance ascii_eq_dec : EqDecision ascii := ascii_dec.

Definition code (c : ascii) : Z := Z.of_N (N_of_ascii c).

(** [iskey]: [0-9a-zA-Z_]. *)
Definition iskey (c : ascii) : bool :=
  ((code "0" <=? code c) && (code c <=? code "9")) ||
  ((code "A" <=? code c) && (code c <=? code "Z")) ||
  ((code "a" <=? code c) && (code c <=? code "z")) ||
  (Ascii.eqb "_" c).

(** ** [fixed_string_t<N>] *)

Record fixed_string_t : Type := mk_fixed_string {
  capacity_ : Z;          (* the template parameter [N] *)
  data_ : list ascii;     (* [char data_[N]] *)
  size_ : Z               (* [std::size_t size_] *)
}.

(** [fixed_string_t<N>{}]: value-initialised, all members zero. *)
Definition fixed_string_default (N : Z) : fixed_string_t :=
  {| capacity_ := N; data_ := replicate (Z.to_nat N) NUL; size_ := 0 |}.

Definition with_size (s : fixed_string_t) (n : Z) : fixed_string_t :=
  {| capacity_ := capacity_ s; data_ := data_ s; size_ := n |}.

(** [s[i]] as an rvalue; outside the array the evaluation fails. *)
Definition get (s : fixed_string_t) (i : Z) : result ascii :=
  match data_ s !! Z.to_nat i with
  | Some c => Ok c
  | None => Err OutOfBounds
  end.

(** [s[i] = c]. *)
Definition put (s : fixed_string_t) (i : Z) (c : ascii) : result fixed_string_t :=
  if i <? Z.of_nat (length (data_ s)) then
    Ok {| capacity_ := capacity_ s;
          data_ := <[Z.to_nat i := c]> (data_ s);
          size_ := size_ s |}
  else Err OutOfBounds.

(** A [const char*]: the array it points into and the offset in it. *)
Definition char_ptr : Type := (list ascii * Z)%type.

Definition deref (p : char_ptr) (i : Z) : result ascii :=
  if (0 <=? p.2 + i) then
    match p.1 !! Z.to_nat (p.2 + i) with
    | Some c => Ok c
    | None => Err OutOfBounds
    end
  else Err OutOfBounds.

(** The copy loop shared by the two converting constructors:
    [for (size_ = 0; size_ < len && size_ < N - 1; ++size_)
       data_[size_] = str[size_];] *)
Fixpoint copy_loop (fuel : nat) (str : char_ptr) (len : Z)
    (s : fixed_string_t) : result fixed_string_t :=
  match fuel with
  | O => Err LoopBudget
  | S fuel' =>
      if (size_ s <? len) && (size_ s <? wrap (capacity_ s - 1)) then
        c <- deref str (size_ s);
        s' <- put s (size_ s) c;
        copy_loop fuel' str len (with_size s' (wrap (size_ s + 1)))
      else Ok s
  end.

(** [fixed_string_t(const char* str, std::size_t len)] *)
Definition fixed_string_of_ptr (N : Z) (str : char_ptr) (len : Z)
    : result fixed_string_t :=
  s <- copy_loop (S (Z.to_nat len)) str len (fixed_string_default N);
  put s (size_ s) NUL.

(** A string literal is an array holding its characters and a final NUL. *)
Definition literal (s : list ascii) : list ascii := s ++ [NUL].

(** [template<M> fixed_string_t(const char (&str)[M])], with [M - 1] as the
    loop bound. *)
Definition fixed_string_of_literal (N : Z) (lit : list ascii)
    : result fixed_string_t :=
  let M := Z.of_nat (length (literal lit)) in
  s <- copy_loop (S (length lit)) (literal lit, 0) (wrap (M - 1))
            (fixed_string_default N);
  put s (size_ s) NUL.

(** [to_fixed_string(const char (&src)[N])] *)
Definition to_fixed_string (lit : list ascii) : result fixed_string_t :=
  fixed_string_of_literal (Z.of_nat (length (literal lit))) lit.

(** [view()]: the first [size_] characters. *)
Definition view (s : fixed_string_t) : list ascii :=
  take (Z.to_nat (size_ s)) (data_ s).

(** [find(c)] *)
Fixpoint find_loop (fuel : nat) (s : fixed_string_t) (c : ascii) (pos : Z)
    : result Z :=
  match fuel with
  | O => Err LoopBudget
  | S fuel' =>
      if pos <? size_ s then
        d <- get s pos;
        if Ascii.eqb d c then Ok pos
        else find_loop fuel' s c (wrap (pos + 1))
      else Ok npos
  end.

Definition find (s : fixed_string_t) (c : ascii) : result Z :=
  if size_ s =? 0 then Ok npos
  else find_loop (S (Z.to_nat (size_ s))) s c 0.

(** [rfind(c)]: the body of [do { ... } while (pos--);].  The test reads
    the old [pos]; the decrement happens whether or not the loop goes on. *)
Fixpoint rfind_loop (fuel : nat) (s : fixed_string_t) (c : ascii) (pos : Z)
    : result Z :=
  match fuel with
  | O => Err LoopBudget
  | S fuel' =>
      d <- get s pos;
      if Ascii.eqb d c then Ok pos
      else if pos =? 0 then Ok (wrap (pos - 1))
      else rfind_loop fuel' s c (wrap (pos - 1))
  end.

Definition rfind (s : fixed_string_t) (c : ascii) : result Z :=
  let pos := wrap (size_ s - 1) in
  if size_ s =? 0 then Ok pos
  else rfind_loop (Z.to_nat (size_ s)) s c pos.

(** ** The compiler, as far as the header can observe it *)

Inductive compiler_family : Set :=
| GCC       (* [__GNUC__] *)
| Clang     (* [__clang__] *)
| MSVC      (* [_MSC_VER] *)
| Other.    (* none of the three: [#error Unsupported compiler.] *)

(** What one build fixes: the family, and the two signature literals the
    calibration reads, [full<int>::get()] and [full<void>::get()]. *)
Record compiler : Type := {
  family : compiler_family;
  full_int : list ascii;
  full_void : list ascii
}.

(** A type [T], as far as the header can observe it: the literal
    [NSFX_FUNCTION] expands to inside [impl<T>::raw()], and the seven
    [<type_traits>] predicates [base()] asks. *)
Record cxx_type : Type := {
  signature : list ascii;
  is_const : bool;
  is_volatile : bool;
  is_array : bool;
  is_pointer : bool;
  is_reference : bool;
  is_function : bool;
  is_member_pointer : bool
}.

(** ** [std::string_view] *)

Definition sv_size (s : list ascii) : Z := Z.of_nat (length s).

Fixpoint starts_with (needle hay : list ascii) : bool :=
  match needle, hay with
  | [], _ => true
  | _ :: _, [] => false
  | c :: needle', d :: hay' => Ascii.eqb c d && starts_with needle' hay'
  end.

(** [string_view::find] for a C string: the first position at which the
    needle starts, or [npos]. *)
Fixpoint sv_find_from (hay needle : list ascii) (i : Z) : Z :=
  if starts_with needle hay then i
  else match hay with
       | [] => npos
       | _ :: hay' => sv_find_from hay' needle (i + 1)
       end.

Definition sv_find (hay needle : list ascii) : Z := sv_find_from hay needle 0.

Definition chars (s : string) : list ascii := list_ascii_of_string s.

(** ** [details::type_name] *)

Section Calibration.

Variable cc : compiler.

(** [full<int>::get().find("int")] *)
Definition name_start_pos : Z := sv_find (full_int cc) (chars "int").

(** [full<void>::get().size() - full<int>::get().size()] *)
Definition num_appearance : Z :=
  wrap (sv_size (full_void cc) - sv_size (full_int cc)).

(** [full<void>::get().size() - 4 * num_appearance] *)
Definition num_misc_chars : Z :=
  wrap (sv_size (full_void cc) - wrap (4 * num_appearance)).

End Calibration.

(** The loop of [match]:
    [while (pos + n < len && n < L) { if (str[pos + n] != sub[n]) break; ++n; }] *)
Fixpoint match_loop (fuel : nat) (str : fixed_string_t) (pos len : Z)
    (sub : list ascii) (L n : Z) : result Z :=
  match fuel with
  | O => Err LoopBudget
  | S fuel' =>
      if (wrap (pos + n) <? len) && (n <? L) then
        d <- get str (wrap (pos + n));
        c <- deref (literal sub, 0) n;
        if negb (Ascii.eqb d c) then Ok n
        else match_loop fuel' str pos len sub L (wrap (n + 1))
      else Ok n
  end.

(** [match(str, pos, len, sub)]; [sub] is the literal without its NUL, so
    [K = length sub + 1]. *)
Definition match_ (str : fixed_string_t) (pos len : Z) (sub : list ascii)
    : result Z :=
  let K := Z.of_nat (length (literal sub)) in
  let L := wrap (K - 1) in
  n <- match_loop (S (length sub)) str pos len sub L 0;
  if negb (n =? L) then Ok 0
  else if negb (wrap (pos + L) =? len) then
    d <- get str (wrap (pos + L));
    if iskey d then Ok 0
    else if Ascii.eqb d SPACE then Ok (wrap (n + 1))
    else Ok n
  else Ok n.

(** The decoration keywords, in the order [dry] and [tidy] try them. *)
Definition keywords : list (list ascii) :=
  [chars "enum"; chars "class"; chars "struct"; chars "__cdecl"].

(** The four statements [n = match(name, pos, len, KW); if (n) { pos += n;
    continue; }] that open each round of [dry] and [tidy]: the first
    non-zero [n], or [0] when every keyword fails. *)
Fixpoint match_keywords (name : fixed_string_t) (pos len : Z)
    (subs : list (list ascii)) : result Z :=
  match subs with
  | [] => Ok 0
  | sub :: subs' =>
      n <- match_ name pos len sub;
      if negb (n =? 0) then Ok n
      else match_keywords name pos len subs'
  end.

(** *** [dry]: the counting pass *)

(** [while (pos < len && iskey(name[pos])) { ++size; ++pos; }], and the
    same loop with [!iskey] when [want] is [false]. *)
Fixpoint dry_run (fuel : nat) (want : bool) (name : fixed_string_t) (len : Z)
    (pos size : Z) : result (Z * Z) :=
  match fuel with
  | O => Err LoopBudget
  | S fuel' =>
      if pos <? len then
        c <- get name pos;
        if Bool.eqb (iskey c) want then
          dry_run fuel' want name len (wrap (pos + 1)) (wrap (size + 1))
        else Ok (pos, size)
      else Ok (pos, size)
  end.

(** The [while (true)] loop of [dry]. *)
Fixpoint dry_loop (fuel budget : nat) (name : fixed_string_t) (len : Z)
    (pos size : Z) : result (Z * Z) :=
  match fuel with
  | O => Err LoopBudget
  | S fuel' =>
      n <- match_keywords name pos len keywords;
      if negb (n =? 0) then dry_loop fuel' budget name len (wrap (pos + n)) size
      else
        ' (pos1, size1) <- dry_run budget true name len pos size;
        ' (pos2, size2) <- dry_run budget false name len pos1 size1;
        if pos2 =? len then Ok (pos2, size2)
        else dry_loop fuel' budget name len pos2 size2
  end.

(** [while (pos && name[pos - 1] == ' ') { --pos; --size; }] *)
Fixpoint dry_strip (fuel : nat) (name : fixed_string_t) (pos size : Z)
    : result Z :=
  match fuel with
  | O => Err LoopBudget
  | S fuel' =>
      if negb (pos =? 0) then
        c <- get name (wrap (pos - 1));
        if Ascii.eqb c SPACE then
          dry_strip fuel' name (wrap (pos - 1)) (wrap (size - 1))
        else Ok size
      else Ok size
  end.

(** The [_MSC_VER] branch of [dry], on the value of [raw()]. *)
Definition dry_msvc (name : fixed_string_t) : result Z :=
  let len := wrap (capacity_ name - 1) in
  let budget := S (Z.to_nat len) in
  ' (pos, size) <- dry_loop budget budget name len 0 0;
  dry_strip budget name pos size.

(** *** [tidy]: the copying pass *)

(** [while (dst.size_ < L && pos < len && iskey(name[pos]))
      dst[dst.size_++] = name[pos++];], and its [!iskey] twin. *)
Fixpoint tidy_run (fuel : nat) (want : bool) (name : fixed_string_t)
    (len L : Z) (pos : Z) (dst : fixed_string_t)
    : result (Z * fixed_string_t) :=
  match fuel with
  | O => Err LoopBudget
  | S fuel' =>
      if (size_ dst <? L) && (pos <? len) then
        c <- get name pos;
        if Bool.eqb (iskey c) want then
          dst' <- put dst (size_ dst) c;
          tidy_run fuel' want name len L (wrap (pos + 1))
            (with_size dst' (wrap (size_ dst + 1)))
        else Ok (pos, dst)
      else Ok (pos, dst)
  end.

(** The [while (true)] loop of [tidy]. *)
Fixpoint tidy_loop (fuel budget : nat) (name : fixed_string_t) (len L : Z)
    (pos : Z) (dst : fixed_string_t) : result (Z * fixed_string_t) :=
  match fuel with
  | O => Err LoopBudget
  | S fuel' =>
      n <- match_keywords name pos len keywords;
      if negb (n =? 0) then
        tidy_loop fuel' budget name len L (wrap (pos + n)) dst
      else
        ' (pos1, dst1) <- tidy_run budget true name len L pos dst;
        ' (pos2, dst2) <- tidy_run budget false name len L pos1 dst1;
        if (size_ dst2 =? L) || (pos2 =? len) then Ok (pos2, dst2)
        else tidy_loop fuel' budget name len L pos2 dst2
  end.

(** The [_MSC_VER] branch of [tidy], on the value of [raw()]; [L] is
    [dry()]. *)
Definition tidy_msvc (name : fixed_string_t) : result fixed_string_t :=
  let len := wrap (capacity_ name - 1) in
  L <- dry_msvc name;
  let budget := S (Z.to_nat len) in
  ' (_, dst) <- tidy_loop budget budget name len L 0
                  (fixed_string_default (wrap (L + 1)));
  put dst L NUL.

Section Impl.

Variable cc : compiler.
Variable T : cxx_type.

(** [impl<T>::raw()].  On a compiler that is none of the three the
    header stops at [#error Unsupported compiler.], so nothing is built.
    The pointer [full.data_ + name_start_pos] has to stay within the array
    of [N] characters, or one past it, also when nothing is read through
    it. *)
Definition raw : result fixed_string_t :=
  full <- to_fixed_string (signature T);
  let N := capacity_ full in
  L <- sz_div (wrap (wrap (N - 1) - num_misc_chars cc)) (num_appearance cc);
  match family cc with
  | Other => Err UnsupportedCompiler
  | GCC | Clang | MSVC =>
      if name_start_pos cc <=? N
      then fixed_string_of_ptr (wrap (L + 1)) (data_ full, name_start_pos cc) L
      else Err OutOfBounds
  end.

(** [impl<T>::dry()] *)
Definition dry : result Z :=
  name <- raw;
  match family cc with
  | GCC | Clang => Ok (capacity_ name)
  | MSVC => dry_msvc name
  | Other => Err UnsupportedCompiler
  end.

(** [impl<T>::tidy()] *)
Definition tidy : result fixed_string_t :=
  name <- raw;
  match family cc with
  | GCC | Clang => Ok name
  | MSVC => tidy_msvc name
  | Other => Err UnsupportedCompiler
  end.

(** The condition of the [if constexpr] in [base()]. *)
Definition qualified_or_compound : bool :=
  is_const T || is_volatile T || is_array T || is_pointer T ||
  is_reference T || is_function T || is_member_pointer T.

(** [impl<T>::base()] *)
Definition base : result fixed_string_t :=
  if qualified_or_compound then tidy
  else
    name <- tidy;
    pos <- rfind name COLON;
    if pos =? npos then Ok name
    else
      let N := wrap (wrap (capacity_ name - pos) - 1) in
      fixed_string_of_ptr N (data_ name, pos + 1) N.

End Impl.

(** [type_name<T>::name()] *)
Definition name (cc : compiler) (T : cxx_type) : result fixed_string_t :=
  tidy cc T.

(** ** Well-formed strings *)

(** [data_] is an array of [capacity_] characters, and the logical length
    leaves room for the terminator. *)
Definition wf (s : fixed_string_t) : Prop :=
  Z.of_nat (length (data_ s)) = capacity_ s /\
  capacity_ s < SIZE_MOD /\
  0 <= size_ s < capacity_ s.

(** The constructor's object after [k] characters of [src] were copied. *)
Definition filled (N : Z) (src : list ascii) (k : nat) : fixed_string_t :=
  {| capacity_ := N;
     data_ := take k src ++ replicate (Z.to_nat N - k) NUL;
     size_ := Z.of_nat k |}.

(** An object of capacity [cap] holding [out] and NUL padding. *)
Definition holding (cap : Z) (out : list ascii) : fixed_string_t :=
  {| capacity_ := cap;
     data_ := out ++ replicate (Z.to_nat cap - length out) NUL;
     size_ := Z.of_nat (length out) |}.

(** The characters [dry] and [tidy] scan: the first [capacity_ - 1]. *)
Definition text (name : fixed_string_t) : list ascii :=
  take (Z.to_nat (capacity_ name - 1)) (data_ name).

(** ** The shape of a signature

    A signature of the calibrated shape is a prefix followed by one or
    more appearances of the printed type name, each followed by its own
    piece of boilerplate. *)

Fixpoint appearances (nm : list ascii) (rest : list (list ascii)) : list ascii :=
  match rest with
  | [] => []
  | b :: rest' => nm ++ b ++ appearances nm rest'
  end.

Definition instantiate (b0 : list ascii) (rest : list (list ascii))
    (nm : list ascii) : list ascii :=
  b0 ++ appearances nm rest.

(** The characters of a signature that belong to no appearance. *)
Fixpoint boilerplate_length (rest : list (list ascii)) : nat :=
  match rest with
  | [] => 0%nat
  | b :: rest' => (length b + boilerplate_length rest')%nat
  end.

(** ** The scan, on lists

    What [match], [dry] and [tidy] compute, said on the list of characters
    still ahead of [pos]; the loops above are shown to compute these. *)

(** Characters of [name] from [pos] up to [len]. *)
Definition ahead (name : fixed_string_t) (len pos : Z) : list ascii :=
  drop (Z.to_nat pos) (take (Z.to_nat len) (data_ name)).

(** Length of the longest common prefix. *)
Fixpoint lcp (a b : list ascii) : nat :=
  match a, b with
  | c :: a', d :: b' => if Ascii.eqb c d then S (lcp a' b') else 0%nat
  | _, _ => 0%nat
  end.

(** How many characters [match] removes when [s] is ahead. *)
Definition match_ahead (sub s : list ascii) : nat :=
  if starts_with sub s then
    match drop (length sub) s with
    | [] => length sub
    | d :: _ =>
        if iskey d then 0%nat
        else if Ascii.eqb d SPACE then S (length sub)
        else length sub
    end
  else 0%nat.

(** The first keyword that matches decides. *)
Fixpoint strip_ahead (subs : list (list ascii)) (s : list ascii) : nat :=
  match subs with
  | [] => 0%nat
  | sub :: subs' =>
      match match_ahead sub s with
      | O => strip_ahead subs' s
      | S n => S n
      end
  end.

Fixpoint take_while (p : ascii -> bool) (l : list ascii) : list ascii :=
  match l with
  | [] => []
  | c :: l' => if p c then c :: take_while p l' else []
  end.

Fixpoint drop_while (p : ascii -> bool) (l : list ascii) : list ascii :=
  match l with
  | [] => []
  | c :: l' => if p c then drop_while p l' else l
  end.

Definition is_sep (c : ascii) : bool := negb (iskey c).

(** The characters the scan keeps, one round of the [while (true)] loop
    per unit of [fuel]. *)
Fixpoint kept (fuel : nat) (s : list ascii) : list ascii :=
  match fuel with
  | O => []
  | S fuel' =>
      match strip_ahead keywords s with
      | O =>
          let s1 := drop_while iskey s in
          take_while iskey s ++ take_while is_sep s1
            ++ kept fuel' (drop_while is_sep s1)
      | S n => kept fuel' (drop (S n) s)
      end
  end.

Definition is_space (c : ascii) : bool := Ascii.eqb c SPACE.

(** Number of spaces that end [s]. *)
Definition trailing_spaces (s : list ascii) : nat :=
  length (take_while is_space (reverse s)).

(** The scan's output on the raw name [s]. *)
Definition stripped (s : list ascii) : list ascii :=
  let k := kept (S (length s)) s in
  take (length k - trailing_spaces s) k.

(** The identifier that ends [s], the spaces after it apart; empty when
    [s] ends in a character that is neither. *)
Definition last_word (s : list ascii) : list ascii :=
  reverse (take_while iskey (drop_while is_space (reverse s))).

(** ** Whole-word occurrences *)

(** [kw] occurs in [l] with no identifier character right before or right
    after it. *)
Definition whole_word (kw l : list ascii) : Prop :=
  exists pre post,
    l = pre ++ kw ++ post /\
    (pre = [] \/ exists pre' p, pre = pre' ++ [p] /\ iskey p = false) /\
    (post = [] \/ exists d post', post = d :: post' /\ iskey d = false).

(** [kw] starts [l] and is not continued by an identifier character. *)
Definition word_at (kw l : list ascii) : bool :=
  starts_with kw l &&
  match drop (length kw) l with
  | [] => true
  | d :: _ => negb (iskey d)
  end.

(** No keyword starts as a whole word anywhere in [l]; [prev] tells
    whether the character before [l] is an identifier character. *)
Fixpoint keyword_free (prev : bool) (l : list ascii) : bool :=
  match l with
  | [] => true
  | c :: l' =>
      (prev || forallb (fun kw => negb (word_at kw l)) keywords)
      && keyword_free (iskey c) l'
  end.

(** ** Sample builds

    The signatures the header's comments quote for the three families. *)

Definition sample_msvc : compiler :=
  {| family := MSVC;
     full_int :=
       chars "auto __cdecl nsfx::details::type_name::full<int>::get(void)";
     full_void :=
       chars "auto __cdecl nsfx::details::type_name::full<void>::get(void)" |}.

Definition sample_gcc : compiler :=
  {| family := GCC;
     full_int :=
       chars "static constexpr auto nsfx::details::type_name::full<T>::get() [with T = int]";
     full_void :=
       chars "static constexpr auto nsfx::details::type_name::full<T>::get() [with T = void]" |}.

Definition sample_clang : compiler :=
  {| family := Clang;
     full_int :=
       chars "static auto nsfx::details::type_name::full<int>::get() [T = int]";
     full_void :=
       chars "static auto nsfx::details::type_name::full<void>::get() [T = void]" |}.

(** A build whose signatures do not mention the type at all. *)
Definition sample_silent : compiler :=
  {| family := GCC;
     full_int := chars "static constexpr auto get()";
     full_void := chars "static constexpr auto get()" |}.

(** A type with no qualification, given the literal of [impl<T>::raw()]. *)
Definition value_type (sig : list ascii) : cxx_type :=
  {| signature := sig;
     is_const := false; is_volatile := false; is_array := false;
     is_pointer := false; is_reference := false; is_function := false;
     is_member_pointer := false |}.

Definition const_type (sig : list ascii) : cxx_type :=
  {| signature := sig;
     is_const := true; is_volatile := false; is_array := false;
     is_pointer := false; is_reference := false; is_function := false;
     is_member_pointer := false |}.

(** The literal [impl<T>::raw()] sees under MSVC for a type printed [nm]. *)
Definition msvc_signature (nm : string) : list ascii :=
  chars "auto __cdecl nsfx::details::type_name::impl<" ++ chars nm ++
  chars ">::raw(void)".

Definition gcc_signature (nm : string) : list ascii :=
  chars "static constexpr auto nsfx::details::type_name::impl<T>::raw() [with T = "
  ++ chars nm ++ chars "]".

Definition clang_signature (nm : string) : list ascii :=
  chars "static auto nsfx::details::type_name::impl<" ++ chars nm ++
  chars ">::raw() [T = " ++ chars nm ++ chars "]".

(** * Properties *)

(** ** Arithmetic of [std::size_t] *)

Lemma SIZE_MOD_pos : 0 < SIZE_MOD.
Proof. reflexivity. Qed.

Lemma SIZE_MOD_large : 256 < SIZE_MOD.
Proof. reflexivity. Qed.

Lemma wrap_small z : 0 <= z < SIZE_MOD -> wrap z = z.
Proof. apply Z.mod_small. Qed.

Lemma wrap_range z : 0 <= wrap z < SIZE_MOD.
Proof. apply Z.mod_pos_bound, SIZE_MOD_pos. Qed.

Lemma npos_eq : npos = SIZE_MOD - 1.
Proof. reflexivity. Qed.

Lemma wrap_sub_l a b : wrap (wrap a - b) = wrap (a - b).
Proof. apply Zminus_mod_idemp_l. Qed.

Lemma wrap_decomp z : exists q, wrap z = z + q * SIZE_MOD.
Proof.
  exists (- (z / SIZE_MOD)). unfold wrap. rewrite Z.mod_eq; [ring|].
  pose proof SIZE_MOD_pos. lia.
Qed.

Lemma wrap_shift z q : wrap (z + q * SIZE_MOD) = wrap z.
Proof. apply Z_mod_plus_full. Qed.

(** ** The result monad *)

Lemma bind_Ok {A B} (m : result A) (k : A -> result B) b :
  bind m k = Ok b -> exists a, m = Ok a /\ k a = Ok b.
Proof. destruct m; simpl; [eauto | discriminate]. Qed.

(** ** Well-formed strings and the constructors *)

Lemma filled_0 N src : filled N src 0 = fixed_string_default N.
Proof. unfold filled, fixed_string_default. simpl. by rewrite Nat.sub_0_r. Qed.

Lemma length_filled N src k :
  0 <= N -> (k <= length src)%nat -> (Z.of_nat k <= N) ->
  Z.of_nat (length (data_ (filled N src k))) = N.
Proof.
  intros HN Hk HkN. simpl.
  rewrite length_app, length_take, length_replicate. lia.
Qed.

Lemma get_lookup s i c :
  data_ s !! Z.to_nat i = Some c -> get s i = Ok c.
Proof. intros H. unfold get. by rewrite H. Qed.

Lemma put_filled N src k c :
  (Z.of_nat k < N) -> src !! k = Some c ->
  put (filled N src k) (Z.of_nat k) c =
  Ok {| capacity_ := N;
        data_ := take (S k) src ++ replicate (Z.to_nat N - S k) NUL;
        size_ := Z.of_nat k |}.
Proof.
  intros HkN Hc. unfold put.
  pose proof (lookup_lt_Some _ _ _ Hc) as Hlt.
  rewrite length_filled by lia.
  destruct (Z.ltb_spec (Z.of_nat k) N) as [_|]; [|lia].
  f_equal. simpl. f_equal.
  rewrite Nat2Z.id.
  replace (Z.to_nat N - k)%nat with (S (Z.to_nat N - S k)) by lia.
  rewrite (take_S_r _ _ _ Hc). simpl.
  rewrite <- app_assoc. simpl.
  rewrite insert_app_r_alt by (rewrite length_take; lia).
  rewrite length_take.
  replace (k - k `min` length src)%nat with 0%nat by lia.
  reflexivity.
Qed.

Section Copy.

Variables (N : Z) (buf : list ascii) (off len : Z).

Let src := drop (Z.to_nat off) buf.
Let m := Z.to_nat (Z.min len (N - 1)).

Hypothesis HN : 1 <= N < SIZE_MOD.
Hypothesis Hlen : 0 <= len.
Hypothesis Hoff : 0 <= off.

Lemma deref_src k c :
  src !! k = Some c -> deref (buf, off) (Z.of_nat k) = Ok c.
Proof.
  intros Hc. unfold deref. simpl.
  destruct (Z.leb_spec 0 (off + Z.of_nat k)); [|lia].
  unfold src in Hc. rewrite lookup_drop in Hc.
  replace (Z.to_nat (off + Z.of_nat k)) with (Z.to_nat off + k)%nat by lia.
  by rewrite Hc.
Qed.

Lemma deref_src_None k :
  src !! k = None -> deref (buf, off) (Z.of_nat k) = Err OutOfBounds.
Proof.
  intros Hc. unfold deref. simpl.
  destruct (Z.leb_spec 0 (off + Z.of_nat k)); [|lia].
  unfold src in Hc. rewrite lookup_drop in Hc.
  replace (Z.to_nat (off + Z.of_nat k)) with (Z.to_nat off + k)%nat by lia.
  by rewrite Hc.
Qed.

(** With every character to copy inside the source array, the loop
    copies [min len (N - 1)] of them. *)
Lemma copy_loop_run fuel k :
  (k <= m)%nat -> (m - k < fuel)%nat -> (m <= length src)%nat ->
  copy_loop fuel (buf, off) len (filled N src k) = Ok (filled N src m).
Proof.
  revert k. induction fuel as [|fuel IH]; intros k Hk Hfuel Hsrc; [lia|].
  simpl. rewrite (wrap_small (N - 1)) by lia.
  destruct (Z.ltb_spec (Z.of_nat k) len) as [H1|H1];
    destruct (Z.ltb_spec (Z.of_nat k) (N - 1)) as [H2|H2]; simpl;
    try (replace k with m by (unfold m in *; lia); reflexivity).
  assert (Hkm : (k < m)%nat) by (unfold m; lia).
  destruct (lookup_lt_is_Some_2 src k ltac:(lia)) as [c Hc].
  rewrite (deref_src _ _ Hc). simpl.
  rewrite put_filled by (auto; lia). simpl.
  rewrite wrap_small by lia.
  specialize (IH (S k) ltac:(lia) ltac:(lia) Hsrc).
  unfold filled in IH. rewrite Nat2Z.inj_succ in IH.
  unfold with_size. simpl. exact IH.
Qed.

(** A source array that ends too early stops the evaluation. *)
Lemma copy_loop_short fuel k :
  (k <= m)%nat -> (k <= length src)%nat -> (length src < m)%nat ->
  (m - k < fuel)%nat ->
  copy_loop fuel (buf, off) len (filled N src k) = Err OutOfBounds.
Proof.
  revert k. induction fuel as [|fuel IH]; intros k Hk Hks Hsrc Hfuel; [lia|].
  simpl. rewrite (wrap_small (N - 1)) by lia.
  assert (Hkm : (k < m)%nat) by lia.
  destruct (Z.ltb_spec (Z.of_nat k) len) as [H1|H1]; [|unfold m in *; lia].
  destruct (Z.ltb_spec (Z.of_nat k) (N - 1)) as [H2|H2]; [|unfold m in *; lia].
  simpl.
  destruct (src !! k) as [c|] eqn:Hc.
  - rewrite (deref_src _ _ Hc). simpl.
    pose proof (lookup_lt_Some _ _ _ Hc).
    rewrite put_filled by (auto; lia). simpl.
    rewrite wrap_small by lia.
    specialize (IH (S k) ltac:(lia) ltac:(lia) Hsrc ltac:(lia)).
    unfold filled in IH. rewrite Nat2Z.inj_succ in IH.
    unfold with_size. simpl. exact IH.
  - by rewrite (deref_src_None _ Hc).
Qed.

End Copy.

Lemma put_terminator N src k :
  (k <= length src)%nat -> Z.of_nat k < N ->
  put (filled N src k) (Z.of_nat k) NUL = Ok (filled N src k).
Proof.
  intros Hk HkN. unfold put.
  rewrite length_filled by lia.
  destruct (Z.ltb_spec (Z.of_nat k) N) as [_|]; [|lia].
  f_equal. unfold filled. simpl. f_equal.
  apply list_insert_id.
  rewrite Nat2Z.id, lookup_app_r by (rewrite length_take; lia).
  rewrite length_take. apply lookup_replicate_2. lia.
Qed.

(** [fixed_string_t<N>{str, len}]: either the evaluation stops at an array
    bound, or the object holds the first [min len (N - 1)] characters
    behind the pointer, padded with NUL. *)
Lemma fixed_string_of_ptr_spec N buf off len :
  0 <= N < SIZE_MOD -> 0 <= len < SIZE_MOD -> 0 <= off ->
  fixed_string_of_ptr N (buf, off) len =
    let src := drop (Z.to_nat off) buf in
    let m := Z.to_nat (Z.min len (N - 1)) in
    if (N =? 0) || (length src <? m)%nat then Err OutOfBounds
    else Ok (filled N src m).
Proof.
  intros HN Hlen Hoff. cbv zeta. unfold fixed_string_of_ptr.
  destruct (Z.eqb_spec N 0) as [->|HN0]; simpl orb.
  - cbn [copy_loop fixed_string_default size_ capacity_].
    destruct (Z.ltb_spec 0 len); simpl.
    + unfold deref; simpl. destruct (0 <=? off + 0); [|done].
      destruct (buf !! Z.to_nat (off + 0)); reflexivity.
    + reflexivity.
  - rewrite <- (filled_0 N (drop (Z.to_nat off) buf)).
    destruct (Nat.ltb_spec (length (drop (Z.to_nat off) buf))
                (Z.to_nat (Z.min len (N - 1)))) as [Hs|Hs].
    + rewrite copy_loop_short; try lia. reflexivity.
    + rewrite copy_loop_run; try lia. simpl bind.
      replace (size_ (filled N (drop (Z.to_nat off) buf)
                        (Z.to_nat (Z.min len (N - 1)))))
        with (Z.of_nat (Z.to_nat (Z.min len (N - 1)))) by reflexivity.
      apply put_terminator; lia.
Qed.

Lemma view_filled N src k :
  (k <= length src)%nat -> view (filled N src k) = take k src.
Proof.
  intros Hk. unfold view, filled. simpl. rewrite Nat2Z.id.
  rewrite take_app_le by (rewrite length_take; lia).
  rewrite take_take. f_equal. lia.
Qed.

Lemma wf_filled N src k :
  N < SIZE_MOD -> (k <= length src)%nat -> Z.of_nat k < N ->
  wf (filled N src k).
Proof.
  intros HN Hk HkN. unfold wf. rewrite length_filled by lia.
  simpl. lia.
Qed.

(** [to_fixed_string] on a literal: the characters, the terminator, and
    [size_ = capacity_ - 1]. *)
Lemma to_fixed_string_spec lit :
  sv_size lit < SIZE_MOD - 1 ->
  to_fixed_string lit =
  Ok {| capacity_ := sv_size lit + 1; data_ := literal lit;
        size_ := sv_size lit |}.
Proof.
  intros Hlit. unfold to_fixed_string, fixed_string_of_literal.
  assert (Hl : Z.of_nat (length (literal lit)) = sv_size lit + 1)
    by (unfold literal, sv_size; rewrite length_app; simpl; lia).
  rewrite Hl. replace (sv_size lit + 1 - 1) with (sv_size lit) by lia.
  unfold sv_size in *. rewrite wrap_small by lia.
  set (n := length lit) in *.
  assert (Hm : Z.to_nat (Z.min (Z.of_nat n) (Z.of_nat n + 1 - 1)) = n) by lia.
  pose proof (copy_loop_run (Z.of_nat n + 1) (literal lit) 0 (Z.of_nat n)
                ltac:(lia) ltac:(lia) ltac:(lia) (S n) 0%nat) as Hrun.
  rewrite Hm in Hrun. change (drop (Z.to_nat 0) (literal lit)) with (literal lit) in Hrun.
  rewrite filled_0 in Hrun.
  rewrite Hrun by (unfold literal; rewrite ?length_app; simpl length; lia).
  simpl bind.
  change (size_ (filled (Z.of_nat n + 1) (literal lit) n)) with (Z.of_nat n).
  rewrite put_terminator
    by (unfold literal; rewrite ?length_app; simpl length; lia).
  f_equal. unfold filled, literal. f_equal.
  subst n. rewrite take_app_length.
  replace (Z.to_nat (Z.of_nat (length lit) + 1) - length lit)%nat
    with 1%nat by lia.
  reflexivity.
Qed.

Lemma eqb_false_neq (c d : ascii) : Ascii.eqb c d = false -> c <> d.
Proof. intros H ->. by rewrite Ascii.eqb_refl in H. Qed.

Lemma view_lookup s j :
  (j < Z.to_nat (size_ s))%nat -> view s !! j = data_ s !! j.
Proof. intros Hj. unfold view. by rewrite lookup_take_lt. Qed.

Lemma view_lookup_ge s j :
  (Z.to_nat (size_ s) <= j)%nat -> view s !! j = None.
Proof. intros Hj. unfold view. apply lookup_take_ge. lia. Qed.

Lemma length_view s : wf s -> Z.of_nat (length (view s)) = size_ s.
Proof. intros (Hd & Hc & Hs). unfold view. rewrite length_take. lia. Qed.

(** ** Backward search *)

(** The loop, started at [pos], ends on the largest index up to [pos] that
    holds [c]; when there is none the last decrement wraps below zero. *)
Lemma rfind_loop_spec s c fuel pos :
  Z.of_nat fuel = pos + 1 -> 0 <= pos ->
  pos < Z.of_nat (length (data_ s)) -> pos < SIZE_MOD ->
  exists r, rfind_loop fuel s c pos = Ok r /\
    ((r = npos /\ forall j, (j <= Z.to_nat pos)%nat -> data_ s !! j <> Some c) \/
     (0 <= r <= pos /\ data_ s !! Z.to_nat r = Some c /\
      forall j, (Z.to_nat r < j <= Z.to_nat pos)%nat -> data_ s !! j <> Some c)).
Proof.
  revert pos. induction fuel as [|fuel IH]; intros pos Hfuel Hpos0 Hlen Hmax; [lia|].
  simpl.
  destruct (lookup_lt_is_Some_2 (data_ s) (Z.to_nat pos) ltac:(lia)) as [d Hd].
  rewrite (get_lookup _ _ _ Hd). simpl.
  destruct (Ascii.eqb d c) eqn:Hdc.
  - apply Ascii.eqb_eq in Hdc as ->. exists pos. split; [done|].
    right. repeat split; [lia|lia|done|]. intros j Hj. lia.
  - apply eqb_false_neq in Hdc.
    destruct (Z.eqb_spec pos 0) as [->|Hpos].
    + exists npos. split; [done|]. left. split; [done|].
      intros j Hj. replace j with 0%nat by lia.
      change (Z.to_nat 0) with 0%nat in Hd. rewrite Hd. congruence.
    + rewrite wrap_small by lia.
      destruct (IH (pos - 1) ltac:(lia) ltac:(lia) ltac:(lia) ltac:(lia))
        as (r & Hr & Hcase).
      exists r. split; [done|].
      destruct Hcase as [[-> Hnone]|(Hrange & Hat & Hafter)].
      * left. split; [done|]. intros j Hj.
        destruct (decide (j = Z.to_nat pos)) as [->|Hne].
        -- rewrite Hd. congruence.
        -- apply Hnone. lia.
      * right. repeat split; [lia|lia|done|]. intros j Hj.
        destruct (decide (j = Z.to_nat pos)) as [->|Hne].
        -- rewrite Hd. congruence.
        -- apply Hafter. lia.
Qed.

(** [rfind] as a whole: the last occurrence, or [npos]. *)
Lemma rfind_spec (s : fixed_string_t) (c : ascii) :
  wf s ->
  exists r, rfind s c = Ok r /\
    (c ∈ view s ->
       0 <= r < size_ s /\ view s !! Z.to_nat r = Some c /\
       forall j, (Z.to_nat r < j)%nat -> view s !! j <> Some c) /\
    (c ∉ view s -> r = npos) /\
    (size_ s = 0 -> r = npos).
Proof.
  intros (Hd & Hc & Hs). unfold rfind.
  destruct (Z.eqb_spec (size_ s) 0) as [H0|H0].
  - exists npos. rewrite H0. split; [done|].
    assert (Hv : view s = []) by (unfold view; rewrite H0; reflexivity).
    rewrite Hv. split; [|done]. intros Hin. by apply elem_of_nil in Hin.
  - rewrite wrap_small by lia.
    destruct (rfind_loop_spec s c (Z.to_nat (size_ s)) (size_ s - 1)
                ltac:(lia) ltac:(lia) ltac:(lia) ltac:(lia))
      as (r & Hr & Hcase).
    exists r. split; [done|].
    destruct Hcase as [[-> Hnone]|(Hrange & Hat & Hafter)].
    + assert (Hnot : c ∉ view s).
      { intros Hin. apply list_elem_of_lookup in Hin as [j Hj].
        pose proof (lookup_lt_Some _ _ _ Hj) as Hlt.
        unfold view in Hlt. rewrite length_take in Hlt.
        rewrite view_lookup in Hj by lia. apply (Hnone j); [lia|done]. }
      repeat split; try done; intros; try lia; by exfalso.
    + assert (Hin : c ∈ view s).
      { apply list_elem_of_lookup. exists (Z.to_nat r).
        rewrite view_lookup by lia. done. }
      split; [|split; [done|lia]].
      intros _. split; [lia|]. split; [rewrite view_lookup by lia; done|].
      intros j Hj. destruct (decide (j < Z.to_nat (size_ s))%nat) as [Hlt|Hge].
      * rewrite view_lookup by lia. apply Hafter. lia.
      * rewrite view_lookup_ge by lia. done.
Qed.

(** C5. [rfind(c)] on a string returns the largest index below the logical
    length that holds [c]; when the string is empty, or holds no [c], it
    returns [npos]. *)
Theorem rfind_last_occurrence (s : fixed_string_t) (c : ascii) :
  wf s ->
  exists r, rfind s c = Ok r /\
    (c ∈ view s ->
       0 <= r < size_ s /\ view s !! Z.to_nat r = Some c /\
       forall j, (Z.to_nat r < j)%nat -> view s !! j <> Some c) /\
    (c ∉ view s -> r = npos) /\
    (size_ s = 0 -> r = npos).
Proof. apply rfind_spec. Qed.

(** The last colon of ["t::S"] is at index 2. *)
Lemma rfind_last_occurrence_witness :
  wf (filled 5 (chars "t::S") 4) /\
  exists r, rfind (filled 5 (chars "t::S") 4) COLON = Ok r /\
    (COLON ∈ view (filled 5 (chars "t::S") 4) ->
       0 <= r < size_ (filled 5 (chars "t::S") 4) /\
       view (filled 5 (chars "t::S") 4) !! Z.to_nat r = Some COLON /\
       forall j, (Z.to_nat r < j)%nat ->
                 view (filled 5 (chars "t::S") 4) !! j <> Some COLON) /\
    (COLON ∉ view (filled 5 (chars "t::S") 4) -> r = npos) /\
    (size_ (filled 5 (chars "t::S") 4) = 0 -> r = npos).
Proof.
  assert (H : wf (filled 5 (chars "t::S") 4)).
  { unfold wf. simpl. vm_compute. intuition discriminate. }
  split; [exact H|]. exact (rfind_last_occurrence _ COLON H).
Defined.

(** ** Calibration *)

(** C3. With [num_appearance = L_void - L_int] and
    [num_misc_chars = L_void - 4 * num_appearance], both
    [num_misc_chars + num_appearance * 3 == L_int] and
    [num_misc_chars + num_appearance * 4 == L_void] hold, in the
    [std::size_t] arithmetic the constants are computed in; when nothing
    wraps (the [int] signature is no longer than the [void] one, and
    at least three quarters of it) they hold over the integers too. *)
Theorem calibration_consistency (cc : compiler) :
  sv_size (full_int cc) < SIZE_MOD ->
  sv_size (full_void cc) < SIZE_MOD ->
  (wrap (num_misc_chars cc + wrap (num_appearance cc * 3))
     = sv_size (full_int cc) /\
   wrap (num_misc_chars cc + wrap (num_appearance cc * 4))
     = sv_size (full_void cc)) /\
  (sv_size (full_int cc) <= sv_size (full_void cc) ->
   3 * sv_size (full_void cc) <= 4 * sv_size (full_int cc) ->
   num_misc_chars cc + num_appearance cc * 3 = sv_size (full_int cc) /\
   num_misc_chars cc + num_appearance cc * 4 = sv_size (full_void cc)).
Proof.
  intros Hi Hv. unfold num_misc_chars, num_appearance.
  assert (0 <= sv_size (full_int cc)) by (unfold sv_size; lia).
  assert (0 <= sv_size (full_void cc)) by (unfold sv_size; lia).
  set (a := sv_size (full_int cc)) in *.
  set (b := sv_size (full_void cc)) in *.
  split; [|intros Hab H34].
  - destruct (wrap_decomp (b - a)) as [q1 ->].
    destruct (wrap_decomp (4 * (b - a + q1 * SIZE_MOD))) as [q2 ->].
    destruct (wrap_decomp (b - (4 * (b - a + q1 * SIZE_MOD) + q2 * SIZE_MOD)))
      as [q3 ->].
    destruct (wrap_decomp ((b - a + q1 * SIZE_MOD) * 3)) as [q4 ->].
    destruct (wrap_decomp ((b - a + q1 * SIZE_MOD) * 4)) as [q5 ->].
    split.
    + match goal with |- wrap ?e = _ =>
        replace e with (a + (q3 + q4 - q1 - q2) * SIZE_MOD) by ring end.
      rewrite wrap_shift. apply wrap_small. lia.
    + match goal with |- wrap ?e = _ =>
        replace e with (b + (q3 + q5 - q2) * SIZE_MOD) by ring end.
      rewrite wrap_shift. apply wrap_small. lia.
  -
    rewrite (wrap_small (b - a)) by lia.
    rewrite (wrap_small (4 * (b - a))) by lia.
    rewrite (wrap_small (b - 4 * (b - a))) by lia.
    lia.
Qed.

Lemma calibration_consistency_witness :
  (wrap (num_misc_chars sample_clang + wrap (num_appearance sample_clang * 3))
     = sv_size (full_int sample_clang) /\
   wrap (num_misc_chars sample_clang + wrap (num_appearance sample_clang * 4))
     = sv_size (full_void sample_clang)) /\
  (num_misc_chars sample_clang + num_appearance sample_clang * 3
     = sv_size (full_int sample_clang) /\
   num_misc_chars sample_clang + num_appearance sample_clang * 4
     = sv_size (full_void sample_clang)).
Proof.
  destruct (calibration_consistency sample_clang) as [Hmod Hexact];
    [vm_compute; reflexivity | vm_compute; reflexivity |].
  split; [exact Hmod|].
  apply Hexact; vm_compute; discriminate.
Defined.

(** C4. When [num_appearance] is zero the division in [raw()] is a
    division by zero: [raw], [name] and [base] do not build, for any type,
    so no string comes out.  Conversely a [raw()] that yields a string was
    built with [num_appearance > 0]. *)
Theorem zero_appearance_does_not_build (cc : compiler) (T : cxx_type) :
  (sv_size (signature T) < SIZE_MOD - 1 ->
   num_appearance cc = 0 ->
   raw cc T = Err DivisionByZero /\
   name cc T = Err DivisionByZero /\
   base cc T = Err DivisionByZero) /\
  (forall s, raw cc T = Ok s -> 0 < num_appearance cc).
Proof.
  split.
  - intros Hsig Hzero.
    assert (Hraw : raw cc T = Err DivisionByZero).
    { unfold raw. rewrite to_fixed_string_spec by done. simpl.
      rewrite Hzero. reflexivity. }
    assert (Htidy : tidy cc T = Err DivisionByZero)
      by (unfold tidy; rewrite Hraw; reflexivity).
    repeat split; [done|done|].
    unfold base. rewrite Htidy. by destruct (qualified_or_compound T).
  - intros s Hraw. unfold raw in Hraw.
    apply bind_Ok in Hraw as (full & _ & Hraw).
    apply bind_Ok in Hraw as (L & Hdiv & _).
    unfold sz_div in Hdiv.
    destruct (Z.eqb_spec (num_appearance cc) 0); [discriminate|].
    pose proof (wrap_range (sv_size (full_void cc) - sv_size (full_int cc))).
    unfold num_appearance in *. lia.
Qed.

Lemma zero_appearance_does_not_build_witness :
  num_appearance sample_silent = 0 /\
  raw sample_silent (value_type (gcc_signature "int")) = Err DivisionByZero /\
  name sample_silent (value_type (gcc_signature "int")) = Err DivisionByZero /\
  base sample_silent (value_type (gcc_signature "int")) = Err DivisionByZero.
Proof.
  split; [reflexivity|].
  apply (zero_appearance_does_not_build sample_silent
           (value_type (gcc_signature "int"))).
  - vm_compute. reflexivity.
  - reflexivity.
Defined.

(** ** [base] on qualified and compound types *)

(** C7. For a type that is const- or volatile-qualified, or an array, a
    pointer, a reference, a function or a member pointer, [base()] is
    [name()]: nothing is stripped. *)
Theorem base_keeps_qualified_types (cc : compiler) (T : cxx_type) :
  is_const T = true \/ is_volatile T = true \/ is_array T = true \/
  is_pointer T = true \/ is_reference T = true \/ is_function T = true \/
  is_member_pointer T = true ->
  base cc T = name cc T.
Proof.
  intros H. unfold base, name.
  assert (Hq : qualified_or_compound T = true).
  { unfold qualified_or_compound.
    destruct (is_const T), (is_volatile T), (is_array T), (is_pointer T),
      (is_reference T), (is_function T), (is_member_pointer T);
      simpl; try reflexivity.
    destruct H as [H|[H|[H|[H|[H|[H|H]]]]]]; discriminate. }
  by rewrite Hq.
Qed.

Lemma base_keeps_qualified_types_witness :
  base sample_msvc (const_type (msvc_signature "const struct t::S"))
  = name sample_msvc (const_type (msvc_signature "const struct t::S")).
Proof.
  apply (base_keeps_qualified_types sample_msvc
           (const_type (msvc_signature "const struct t::S"))).
  left. reflexivity.
Defined.

(** ** [raw] *)

Lemma length_appearances nm rest :
  length (appearances nm rest) =
  (boilerplate_length rest + length rest * length nm)%nat.
Proof.
  induction rest as [|b rest IH]; simpl; [done|].
  rewrite !length_app, IH. lia.
Qed.

Lemma appearances_cons nm b rest :
  appearances nm (b :: rest) = nm ++ b ++ appearances nm rest.
Proof. reflexivity. Qed.

Lemma sv_size_instantiate b0 rest nm :
  sv_size (instantiate b0 rest nm) =
  Z.of_nat (length b0) + Z.of_nat (boilerplate_length rest)
  + Z.of_nat (length rest) * Z.of_nat (length nm).
Proof.
  unfold sv_size, instantiate. rewrite length_app, length_appearances. lia.
Qed.

Lemma starts_with_app needle tl : starts_with needle (needle ++ tl) = true.
Proof.
  induction needle as [|c needle IH]; simpl; [done|].
  by rewrite Ascii.eqb_refl, IH.
Qed.

Lemma starts_with_prefix needle hay :
  starts_with needle hay = true -> hay = needle ++ drop (length needle) hay.
Proof.
  revert hay. induction needle as [|c needle IH]; intros hay H; [done|].
  destruct hay as [|d hay]; simpl in H; [discriminate|].
  apply andb_true_iff in H as [Hc Hrest].
  apply Ascii.eqb_eq in Hc as ->. simpl. f_equal. by apply IH.
Qed.

(** [find] stops at the first position where the needle starts. *)
Lemma sv_find_from_first needle n : forall hay i,
  (forall j, (j < n)%nat -> starts_with needle (drop j hay) = false) ->
  starts_with needle (drop n hay) = true ->
  sv_find_from hay needle i = i + Z.of_nat n.
Proof.
  induction n as [|n IH]; intros hay i Hbefore Hat.
  - rewrite drop_0 in Hat. destruct hay; simpl; rewrite Hat; lia.
  - pose proof (Hbefore 0%nat ltac:(lia)) as H0. rewrite drop_0 in H0.
    destruct hay as [|c hay].
    + simpl in Hat. congruence.
    + cbn [sv_find_from]. rewrite H0.
      rewrite (IH hay (i + 1)); [lia| |done].
      intros j Hj. apply (Hbefore (S j)). lia.
Qed.

(** [find] returns no position past an occurrence. *)
Lemma sv_find_from_bound needle n : forall hay i,
  starts_with needle (drop n hay) = true ->
  i <= sv_find_from hay needle i <= i + Z.of_nat n.
Proof.
  induction n as [|n IH]; intros hay i Hat.
  - rewrite drop_0 in Hat. destruct hay; simpl; rewrite Hat; lia.
  - destruct hay as [|c hay].
    + simpl in Hat. simpl. rewrite Hat. lia.
    + cbn [sv_find_from]. destruct (starts_with needle (c :: hay)); [lia|].
      specialize (IH hay (i + 1) Hat). lia.
Qed.

(** On a supported compiler the [#error] branch is not taken. *)
Lemma supported_family {A} (cc : compiler) (x : result A) :
  family cc <> Other ->
  match family cc with
  | Other => Err UnsupportedCompiler
  | GCC | Clang | MSVC => x
  end = x.
Proof. by destruct (family cc). Qed.

(** What the two guards of [raw] let through. *)
Lemma raw_guards (cc : compiler) (N : Z) (x : result fixed_string_t)
    (s : fixed_string_t) :
  match family cc with
  | Other => Err UnsupportedCompiler
  | GCC | Clang | MSVC =>
      if name_start_pos cc <=? N then x else Err OutOfBounds
  end = Ok s ->
  family cc <> Other /\ name_start_pos cc <= N /\ x = Ok s.
Proof.
  destruct (family cc); try discriminate;
    (destruct (Z.leb_spec (name_start_pos cc) N) as [Hle|]; [|discriminate]);
    intros Hx; (split; [discriminate|]); split; done.
Qed.

(** C1. On a supported compiler and under the calibration preconditions
    (the [int] and [void]
    signatures are one boilerplate filled with the two names, the
    signature of [T] has boilerplate of the same lengths around the name
    of [T], and [num_appearance > 0]), [raw()] is the slice of [T]'s
    signature that starts at [name_start_pos] and has length
    [(L_T - num_misc_chars) / num_appearance], which is the length of the
    printed name.  When moreover ["int"] does not start earlier in the
    [int] signature, the slice is the printed name itself. *)
Theorem raw_is_calibrated_slice (cc : compiler) (T : cxx_type)
    (b0 b0' : list ascii) (rest rest' : list (list ascii)) (nm : list ascii) :
  family cc <> Other ->
  full_int cc = instantiate b0 rest (chars "int") ->
  full_void cc = instantiate b0 rest (chars "void") ->
  signature T = instantiate b0' rest' nm ->
  length b0' = length b0 ->
  length rest' = length rest ->
  boilerplate_length rest' = boilerplate_length rest ->
  0 < num_appearance cc ->
  sv_size (full_void cc) < SIZE_MOD ->
  sv_size (signature T) < SIZE_MOD - 1 ->
  let name_len :=
    (sv_size (signature T) - num_misc_chars cc) / num_appearance cc in
  exists s,
    raw cc T = Ok s /\
    view s = take (Z.to_nat name_len)
               (drop (Z.to_nat (name_start_pos cc)) (signature T)) /\
    name_len = Z.of_nat (length nm) /\
    size_ s = name_len /\
    capacity_ s = name_len + 1 /\
    wf s /\
    ((forall j, (j < length b0)%nat ->
        starts_with (chars "int") (drop j (full_int cc)) = false) ->
     view s = nm).
Proof.
  intros Hfam Hint Hvoid HT Hb0 Hrest Hboil Hpos Hvsize HTsize name_len.
  pose proof (sv_size_instantiate b0 rest (chars "int")) as Li.
  pose proof (sv_size_instantiate b0 rest (chars "void")) as Lv.
  pose proof (sv_size_instantiate b0' rest' nm) as LT.
  rewrite <- Hint in Li. rewrite <- Hvoid in Lv. rewrite <- HT in LT.
  change (length (chars "int")) with 3%nat in Li.
  change (length (chars "void")) with 4%nat in Lv.
  rewrite Hb0, Hrest, Hboil in LT.
  set (B := Z.of_nat (length b0) + Z.of_nat (boilerplate_length rest)) in *.
  set (k := Z.of_nat (length rest)) in *.
  assert (HB : 0 <= B) by (unfold B; lia).
  assert (Hk : 0 <= k) by (unfold k; lia).
  assert (Hna : num_appearance cc = k).
  { unfold num_appearance. rewrite Li, Lv.
    replace (B + k * Z.of_nat 4 - (B + k * Z.of_nat 3)) with k by lia.
    apply wrap_small. lia. }
  assert (Hk0 : (0 < length rest)%nat) by (unfold k in *; lia).
  assert (Hk0' : (0 < length rest')%nat) by lia.
  assert (Hmisc : num_misc_chars cc = B).
  { unfold num_misc_chars. rewrite Hna, Lv.
    rewrite (wrap_small (4 * k)) by lia.
    replace (B + k * Z.of_nat 4 - 4 * k) with B by lia.
    apply wrap_small. lia. }
  assert (Hocc : starts_with (chars "int") (drop (length b0) (full_int cc))
                 = true).
  { rewrite Hint. unfold instantiate. rewrite drop_app_length.
    destruct rest as [|b rest1]; [simpl in Hk0; lia|].
    rewrite appearances_cons. apply starts_with_app. }
  assert (Hstart : 0 <= name_start_pos cc <= Z.of_nat (length b0)).
  { unfold name_start_pos, sv_find.
    pose proof (sv_find_from_bound _ _ (full_int cc) 0 Hocc). lia. }
  assert (Hlen : name_len = Z.of_nat (length nm)).
  { unfold name_len. rewrite Hmisc, Hna, LT.
    replace (B + k * Z.of_nat (length nm) - B) with (Z.of_nat (length nm) * k)
      by lia.
    apply Z.div_mul. lia. }
  assert (Hroom : Z.of_nat (length b0) + Z.of_nat (length nm)
                  <= sv_size (signature T)).
  { rewrite LT. unfold B. nia. }
  set (src := drop (Z.to_nat (name_start_pos cc)) (literal (signature T))).
  assert (Hsrc : take (length nm) src
                 = take (length nm)
                     (drop (Z.to_nat (name_start_pos cc)) (signature T)) /\
                 (length nm <= length src)%nat).
  { unfold src, literal, sv_size in *.
    rewrite drop_app_le by lia. split.
    - apply take_app_le. rewrite length_drop. lia.
    - rewrite length_app, length_drop. lia. }
  destruct Hsrc as [Htake Hsrclen].
  exists (filled (Z.of_nat (length nm) + 1) src (length nm)).
  assert (HnmB : Z.of_nat (length nm) < SIZE_MOD - 1) by (unfold sv_size in *; lia).
  assert (Hraw : raw cc T
                 = Ok (filled (Z.of_nat (length nm) + 1) src (length nm))).
  { unfold raw. rewrite to_fixed_string_spec by done. simpl bind.
    cbn [capacity_ data_].
    replace (sv_size (signature T) + 1 - 1) with (sv_size (signature T)) by lia.
    rewrite (wrap_small (sv_size (signature T))) by (unfold sv_size in *; lia).
    rewrite Hmisc, Hna, LT.
    replace (B + k * Z.of_nat (length nm) - B) with (Z.of_nat (length nm) * k)
      by lia.
    rewrite (wrap_small (Z.of_nat (length nm) * k)) by nia.
    unfold sz_div. destruct (Z.eqb_spec k 0); [lia|]. simpl bind.
    rewrite Z.div_mul by lia.
    rewrite supported_family by done.
    destruct (Z.leb_spec (name_start_pos cc)
                (B + k * Z.of_nat (length nm) + 1)); [|lia].
    rewrite (wrap_small (Z.of_nat (length nm) + 1)) by lia.
    rewrite fixed_string_of_ptr_spec by lia. cbv zeta. fold src.
    destruct (Z.eqb_spec (Z.of_nat (length nm) + 1) 0); [lia|]. simpl orb.
    replace (Z.to_nat (Z.min (Z.of_nat (length nm))
                         (Z.of_nat (length nm) + 1 - 1)))
      with (length nm) by lia.
    destruct (Nat.ltb_spec (length src) (length nm)); [lia|]. reflexivity. }
  split; [exact Hraw|].
  rewrite view_filled by done. rewrite Htake, Hlen, Nat2Z.id.
  split; [done|]. split; [done|]. split; [done|]. split; [done|].
  split; [apply wf_filled; lia|].
  intros Hfirst.
  assert (Heq : name_start_pos cc = Z.of_nat (length b0)).
  { unfold name_start_pos, sv_find.
    rewrite (sv_find_from_first _ (length b0)); [lia|done|done]. }
  rewrite Heq, Nat2Z.id, HT. unfold instantiate.
  rewrite <- Hb0, drop_app_length.
  destruct rest' as [|b rest1]; [simpl in Hk0'; lia|].
  rewrite appearances_cons. apply take_app_length.
Qed.

Lemma raw_is_calibrated_slice_witness :
  exists s,
    raw sample_clang (value_type (clang_signature "t::S")) = Ok s /\
    view s =
      take (Z.to_nat
              ((sv_size (clang_signature "t::S") - num_misc_chars sample_clang)
               / num_appearance sample_clang))
        (drop (Z.to_nat (name_start_pos sample_clang))
           (clang_signature "t::S")) /\
    (sv_size (clang_signature "t::S") - num_misc_chars sample_clang)
      / num_appearance sample_clang = Z.of_nat (length (chars "t::S")) /\
    size_ s =
      (sv_size (clang_signature "t::S") - num_misc_chars sample_clang)
      / num_appearance sample_clang /\
    capacity_ s =
      (sv_size (clang_signature "t::S") - num_misc_chars sample_clang)
      / num_appearance sample_clang + 1 /\
    wf s /\
    view s = chars "t::S".
Proof.
  destruct (raw_is_calibrated_slice sample_clang
              (value_type (clang_signature "t::S"))
              (chars "static auto nsfx::details::type_name::full<")
              (chars "static auto nsfx::details::type_name::impl<")
              [chars ">::get() [T = "; chars "]"]
              [chars ">::raw() [T = "; chars "]"]
              (chars "t::S"))
    as (s & Hraw & Hslice & Hlen & Hsize & Hcap & Hwf & Hname);
    try reflexivity; [discriminate|].
  exists s. split; [exact Hraw|]. split; [exact Hslice|].
  split; [exact Hlen|]. split; [exact Hsize|]. split; [exact Hcap|].
  split; [exact Hwf|].
  apply Hname. intros j Hj. change (length _) with 43%nat in Hj.
  do 43 (destruct j as [|j]; [reflexivity|]). lia.
Defined.

(** ** The characters ahead of a position *)

Section Ahead.

Variables (name : fixed_string_t) (len : Z).

Hypothesis Hlen : 0 <= len <= Z.of_nat (length (data_ name)).

Lemma length_ahead pos :
  0 <= pos <= len -> Z.of_nat (length (ahead name len pos)) = len - pos.
Proof.
  intros Hpos. unfold ahead. rewrite length_drop, length_take. lia.
Qed.

Lemma ahead_end pos : len <= pos -> ahead name len pos = [].
Proof.
  intros Hpos. unfold ahead. apply drop_ge. rewrite length_take. lia.
Qed.

Lemma ahead_drop pos n :
  0 <= pos ->
  drop n (ahead name len pos) = ahead name len (pos + Z.of_nat n).
Proof.
  intros Hpos. unfold ahead. rewrite drop_drop. f_equal. lia.
Qed.

Lemma ahead_lookup pos n c :
  0 <= pos -> ahead name len pos !! n = Some c ->
  get name (pos + Z.of_nat n) = Ok c.
Proof.
  intros Hpos H. unfold ahead in H. rewrite lookup_drop in H.
  apply lookup_take_Some in H as [H _].
  apply get_lookup. by replace (Z.to_nat (pos + Z.of_nat n))
    with (Z.to_nat pos + n)%nat by lia.
Qed.

Lemma ahead_cons pos :
  0 <= pos < len ->
  exists c, get name pos = Ok c /\
            ahead name len pos = c :: ahead name len (pos + 1).
Proof.
  intros Hpos.
  destruct (ahead name len pos) as [|c tl] eqn:Ha.
  - pose proof (length_ahead pos ltac:(lia)) as Hl. rewrite Ha in Hl.
    simpl in Hl. lia.
  - exists c. split.
    + pose proof (ahead_lookup pos 0 c ltac:(lia)) as Hg.
      rewrite Ha in Hg. rewrite Z.add_0_r in Hg. by apply Hg.
    + f_equal. pose proof (ahead_drop pos 1 ltac:(lia)) as Hd.
      rewrite Ha in Hd. simpl in Hd. by rewrite drop_0 in Hd.
Qed.

End Ahead.

(** ** [match] *)

Lemma lcp_nil_r a : lcp a [] = 0%nat.
Proof. by destruct a. Qed.

Lemma lcp_le a b : (lcp a b <= length a)%nat /\ (lcp a b <= length b)%nat.
Proof.
  revert b. induction a as [|c a IH]; intros [|d b]; simpl; try lia.
  destruct (Ascii.eqb c d); simpl; [|lia]. specialize (IH b). lia.
Qed.

Lemma lcp_starts_with a b :
  lcp a b = length a <-> starts_with a b = true.
Proof.
  revert b. induction a as [|c a IH]; intros [|d b]; simpl; try done.
  destruct (Ascii.eqb c d); simpl; [|done].
  rewrite <- IH. lia.
Qed.

Lemma ascii_eqb_sym (c d : ascii) : Ascii.eqb c d = Ascii.eqb d c.
Proof.
  destruct (Ascii.eqb c d) eqn:H.
  - apply Ascii.eqb_eq in H as ->. by rewrite Ascii.eqb_refl.
  - destruct (Ascii.eqb d c) eqn:H'; [|done].
    apply Ascii.eqb_eq in H' as ->. by rewrite Ascii.eqb_refl in H.
Qed.

Lemma deref_literal sub n c :
  sub !! n = Some c -> deref (literal sub, 0) (Z.of_nat n) = Ok c.
Proof.
  intros H. unfold deref, literal. cbn [fst snd]. rewrite Z.add_0_l.
  destruct (Z.leb_spec 0 (Z.of_nat n)); [|lia].
  rewrite Nat2Z.id, lookup_app_l by (by apply lookup_lt_Some in H).
  by rewrite H.
Qed.

Section Match.

Variables (str : fixed_string_t) (pos len : Z) (sub : list ascii).

Hypothesis Hlen : 0 <= len <= Z.of_nat (length (data_ str)).
Hypothesis Hmax : len < SIZE_MOD.
Hypothesis Hpos : 0 <= pos <= len.
Hypothesis Hsub : Z.of_nat (length sub) < SIZE_MOD.

(** The loop counts the characters [sub] and the text ahead share. *)
Lemma match_loop_spec fuel n :
  pos + Z.of_nat n <= len ->
  (n <= length sub)%nat ->
  (length sub - n < fuel)%nat ->
  match_loop fuel str pos len sub (Z.of_nat (length sub)) (Z.of_nat n) =
  Ok (Z.of_nat (n + lcp (drop n sub) (drop n (ahead str len pos)))).
Proof.
  revert n. induction fuel as [|fuel IH]; intros n Hn Hnsub Hfuel; [lia|].
  cbn [match_loop]. rewrite (wrap_small (pos + Z.of_nat n)) by lia.
  destruct (Z.ltb_spec (pos + Z.of_nat n) len) as [H1|H1];
    destruct (Z.ltb_spec (Z.of_nat n) (Z.of_nat (length sub))) as [H2|H2];
    cbn [andb].
  - destruct (lookup_lt_is_Some_2 sub n ltac:(lia)) as [c Hc].
    pose proof (length_ahead str len Hlen pos Hpos) as Hal.
    destruct (lookup_lt_is_Some_2 (ahead str len pos) n ltac:(lia)) as [d Hd].
    rewrite (ahead_lookup str len pos n d ltac:(lia) Hd). cbn [bind].
    rewrite (deref_literal _ _ _ Hc). cbn [bind].
    rewrite (drop_S _ _ _ Hc), (drop_S _ _ _ Hd). cbn [lcp].
    rewrite (ascii_eqb_sym c d).
    destruct (Ascii.eqb d c); cbn [negb].
    + rewrite (wrap_small (Z.of_nat n + 1)) by lia.
      replace (Z.of_nat n + 1) with (Z.of_nat (S n)) by lia.
      rewrite IH by lia. do 2 f_equal. lia.
    + do 2 f_equal. lia.
  - rewrite (drop_ge sub) by lia. cbn [lcp]. do 2 f_equal. lia.
  - rewrite (drop_ge (ahead str len pos))
      by (pose proof (length_ahead str len Hlen pos Hpos); lia).
    rewrite lcp_nil_r. do 2 f_equal. lia.
  - rewrite (drop_ge sub) by lia. cbn [lcp]. do 2 f_equal. lia.
Qed.

(** [match] computes [match_ahead] on the text ahead of [pos]. *)
Lemma match_refines :
  match_ str pos len sub = Ok (Z.of_nat (match_ahead sub (ahead str len pos))).
Proof.
  unfold match_.
  assert (HK : Z.of_nat (length (literal sub)) - 1 = Z.of_nat (length sub))
    by (unfold literal; rewrite length_app; simpl; lia).
  rewrite HK, (wrap_small (Z.of_nat (length sub))) by lia.
  pose proof (match_loop_spec (S (length sub)) 0 ltac:(lia) ltac:(lia)
                ltac:(lia)) as Hloop.
  rewrite !drop_0 in Hloop. change (Z.of_nat 0) with 0 in Hloop.
  rewrite Hloop. cbn [bind]. clear Hloop.
  pose proof (length_ahead str len Hlen pos Hpos) as Hal.
  pose proof (lcp_le sub (ahead str len pos)) as [Hle1 Hle2].
  pose proof (lcp_starts_with sub (ahead str len pos)) as Hsw.
  unfold match_ahead.
  destruct (Z.eqb_spec (Z.of_nat (0 + lcp sub (ahead str len pos)))
              (Z.of_nat (length sub))) as [Heq|Hne]; cbn [negb].
  - assert (Hl : lcp sub (ahead str len pos) = length sub) by lia.
    rewrite (proj1 Hsw Hl).
    rewrite (wrap_small (pos + Z.of_nat (length sub))) by lia.
    rewrite (ahead_drop str len pos (length sub)) by lia.
    destruct (Z.eqb_spec (pos + Z.of_nat (length sub)) len) as [He|He];
      cbn [negb].
    + rewrite (ahead_end str len (pos + Z.of_nat (length sub))) by lia.
      do 2 f_equal. lia.
    + destruct (ahead_cons str len Hlen (pos + Z.of_nat (length sub))
                  ltac:(lia)) as (d & Hd & ->).
      rewrite Hd. cbn [bind].
      destruct (iskey d); [done|].
      destruct (Ascii.eqb d SPACE).
      * rewrite wrap_small by lia. f_equal. lia.
      * f_equal. lia.
  - destruct (starts_with sub (ahead str len pos)); [|done].
    destruct Hsw as [_ Hsw]. specialize (Hsw eq_refl). lia.
Qed.

End Match.

Lemma starts_with_lookup sub s :
  (forall i c, sub !! i = Some c -> s !! i = Some c) ->
  starts_with sub s = true.
Proof.
  revert s. induction sub as [|c sub IH]; intros s H; [done|].
  pose proof (H 0%nat c eq_refl) as H0.
  destruct s as [|d s]; [discriminate|]. simpl in H0. injection H0 as ->.
  simpl. rewrite Ascii.eqb_refl. apply IH.
  intros i c' Hi. apply (H (S i) c' Hi).
Qed.

Lemma get_Ok_lookup s i c : get s i = Ok c -> data_ s !! Z.to_nat i = Some c.
Proof.
  unfold get. destruct (data_ s !! Z.to_nat i); [|discriminate].
  by intros [= ->].
Qed.

Lemma iskey_space : iskey SPACE = false.
Proof. reflexivity. Qed.

(** C6. Let [sub] stand at [pos] in the first [len] characters of [str].
    Then [match] returns [0] when the next character is an identifier
    character ([sub] only starts a longer identifier), the length of
    [sub] plus one when the next character is a space, and the length of
    [sub] when it is any other character or when [sub] ends the text.
    (The result does not depend on the character before [pos], which the
    caller guarantees not to be an identifier character.) *)
Theorem match_delimited_keyword (str : fixed_string_t) (pos len : Z)
    (sub : list ascii) :
  0 <= len <= Z.of_nat (length (data_ str)) ->
  len < SIZE_MOD ->
  0 <= pos ->
  pos + Z.of_nat (length sub) <= len ->
  (forall i c, sub !! i = Some c -> get str (pos + Z.of_nat i) = Ok c) ->
  (pos + Z.of_nat (length sub) = len ->
     match_ str pos len sub = Ok (Z.of_nat (length sub))) /\
  (forall d,
     pos + Z.of_nat (length sub) < len ->
     get str (pos + Z.of_nat (length sub)) = Ok d ->
     (iskey d = true -> match_ str pos len sub = Ok 0) /\
     (d = SPACE -> match_ str pos len sub = Ok (Z.of_nat (length sub) + 1)) /\
     (iskey d = false -> d <> SPACE ->
        match_ str pos len sub = Ok (Z.of_nat (length sub)))).
Proof.
  intros Hlen Hmax Hpos Hfit Hocc.
  rewrite (match_refines str pos len sub Hlen Hmax ltac:(lia) ltac:(lia)).
  assert (Hsw : starts_with sub (ahead str len pos) = true).
  { apply starts_with_lookup. intros i c Hi.
    pose proof (lookup_lt_Some _ _ _ Hi) as Hlt.
    specialize (Hocc i c Hi). apply get_Ok_lookup in Hocc.
    unfold ahead. rewrite lookup_drop, lookup_take_lt by lia.
    by replace (Z.to_nat pos + i)%nat with (Z.to_nat (pos + Z.of_nat i)) by lia. }
  unfold match_ahead. rewrite Hsw.
  rewrite (ahead_drop str len pos (length sub)) by lia.
  split.
  - intros Hend. rewrite (ahead_end str len) by lia. done.
  - intros d Hmore Hd.
    destruct (ahead_cons str len Hlen (pos + Z.of_nat (length sub))
                ltac:(lia)) as (d' & Hd' & ->).
    rewrite Hd in Hd'. injection Hd' as <-.
    repeat split.
    + intros ->. done.
    + intros ->. rewrite iskey_space, Ascii.eqb_refl. f_equal. lia.
    + intros -> Hns. destruct (Ascii.eqb d SPACE) eqn:He; [|done].
      by apply Ascii.eqb_eq in He.
Qed.

Lemma match_delimited_keyword_witness :
  match_ (holding 11 (chars "struct Foo")) 0 10 (chars "struct")
    = Ok (Z.of_nat (length (chars "struct")) + 1) /\
  match_ (holding 8 (chars "structA")) 0 7 (chars "struct") = Ok 0 /\
  match_ (holding 7 (chars "struct")) 0 6 (chars "struct")
    = Ok (Z.of_nat (length (chars "struct"))).
Proof.
  assert (Hocc : forall tl i c, chars "struct" !! i = Some c ->
            get (holding (Z.of_nat (length (chars "struct" ++ tl)) + 1)
                   (chars "struct" ++ tl)) (0 + Z.of_nat i) = Ok c).
  { intros tl i c Hi. apply get_lookup. rewrite Z.add_0_l, Nat2Z.id.
    unfold holding. cbn [data_]. rewrite <- app_assoc.
    rewrite lookup_app_l by (by apply lookup_lt_Some in Hi). done. }
  split; [|split].
  - refine (proj1 (proj2 (proj2 (match_delimited_keyword
              (holding 11 (chars "struct Foo")) 0 10 (chars "struct")
              _ _ _ _ (Hocc (chars " Foo"))) SPACE _ _)) eq_refl);
      vm_compute; try reflexivity; intuition discriminate.
  - refine (proj1 (proj2 (match_delimited_keyword
              (holding 8 (chars "structA")) 0 7 (chars "struct")
              _ _ _ _ (Hocc (chars "A"))) "A"%char _ _) eq_refl);
      vm_compute; try reflexivity; intuition discriminate.
  - refine (proj1 (match_delimited_keyword
              (holding 7 (chars "struct")) 0 6 (chars "struct")
              _ _ _ _ (Hocc [])) eq_refl);
      vm_compute; try reflexivity; intuition discriminate.
Defined.

(** ** Runs of characters *)

Lemma take_drop_while p l : take_while p l ++ drop_while p l = l.
Proof.
  induction l as [|c l IH]; simpl; [done|].
  destruct (p c); simpl; [by rewrite IH|done].
Qed.

Lemma drop_take_while p l : drop (length (take_while p l)) l = drop_while p l.
Proof.
  induction l as [|c l IH]; simpl; [done|].
  destruct (p c); simpl; done.
Qed.

Lemma length_take_while p l : (length (take_while p l) <= length l)%nat.
Proof.
  induction l as [|c l IH]; simpl; [lia|]. destruct (p c); simpl; lia.
Qed.

Lemma take_while_ext p q l :
  (forall c, p c = q c) -> take_while p l = take_while q l.
Proof.
  intros H. induction l as [|c l IH]; simpl; [done|].
  rewrite H, IH. done.
Qed.

Lemma take_while_Forall p l : Forall (fun c => p c = true) (take_while p l).
Proof.
  induction l as [|c l IH]; simpl; [constructor|].
  destruct (p c) eqn:H; constructor; done.
Qed.

Lemma drop_while_head p l c tl : drop_while p l = c :: tl -> p c = false.
Proof.
  induction l as [|d l IH]; simpl; [done|].
  destruct (p d) eqn:H; [done|]. by intros [= -> ->].
Qed.

(** ** The keyword test *)

Lemma match_ahead_le sub s : (match_ahead sub s <= length s)%nat.
Proof.
  unfold match_ahead. destruct (starts_with sub s) eqn:Hs; [|lia].
  apply starts_with_prefix in Hs.
  assert (Hl : length s = (length sub + length (drop (length sub) s))%nat)
    by (rewrite Hs at 1; by rewrite length_app).
  destruct (drop (length sub) s) as [|d tl]; simpl in Hl; [lia|].
  destruct (iskey d); [lia|]. destruct (Ascii.eqb d SPACE); lia.
Qed.

Lemma strip_ahead_le subs s : (strip_ahead subs s <= length s)%nat.
Proof.
  induction subs as [|sub subs IH]; simpl; [lia|].
  pose proof (match_ahead_le sub s).
  destruct (match_ahead sub s); [done|lia].
Qed.

Lemma keywords_short sub : sub ∈ keywords -> Z.of_nat (length sub) < SIZE_MOD.
Proof.
  unfold keywords. rewrite !elem_of_cons, elem_of_nil.
  intros [->|[->|[->|[->|[]]]]]; reflexivity.
Qed.

Lemma kept_nil fuel : kept fuel [] = [].
Proof. induction fuel as [|fuel IH]; simpl; [done|]. by rewrite IH. Qed.

Lemma eqb_iskey_true c : Bool.eqb (iskey c) true = iskey c.
Proof. by destruct (iskey c). Qed.

Lemma eqb_iskey_false c : Bool.eqb (iskey c) false = is_sep c.
Proof. unfold is_sep. by destruct (iskey c). Qed.

Lemma run_progress s :
  s <> [] ->
  (0 < length (take_while iskey s)
       + length (take_while is_sep (drop_while iskey s)))%nat.
Proof.
  destruct s as [|c s]; [done|]. intros _. simpl. unfold is_sep at 1.
  destruct (iskey c) eqn:Hc; simpl; [lia|]. unfold is_sep. rewrite Hc. simpl. lia.
Qed.

Section Scan.

Variables (name : fixed_string_t) (len : Z).

Hypothesis Hlen : 0 <= len <= Z.of_nat (length (data_ name)).
Hypothesis Hmax : len < SIZE_MOD.

Lemma match_keywords_refines pos subs :
  0 <= pos <= len ->
  (forall sub, sub ∈ subs -> Z.of_nat (length sub) < SIZE_MOD) ->
  match_keywords name pos len subs =
  Ok (Z.of_nat (strip_ahead subs (ahead name len pos))).
Proof.
  intros Hpos. induction subs as [|sub subs IH]; intros Hshort; [done|].
  cbn [match_keywords strip_ahead].
  rewrite (match_refines name pos len sub Hlen Hmax Hpos)
    by (apply Hshort; left).
  cbn [bind].
  destruct (match_ahead sub (ahead name len pos)) as [|m].
  - cbn. apply IH. intros s Hs. apply Hshort. by right.
  - destruct (Z.eqb_spec (Z.of_nat (S m)) 0); [lia|]. done.
Qed.

(** A run loop walks over the longest run ahead, counting it. *)
Lemma dry_run_spec want fuel pos size :
  0 <= pos <= len -> 0 <= size -> size + (len - pos) < SIZE_MOD ->
  (length (ahead name len pos) < fuel)%nat ->
  let run := take_while (fun c => Bool.eqb (iskey c) want)
               (ahead name len pos) in
  dry_run fuel want name len pos size =
  Ok (pos + Z.of_nat (length run), size + Z.of_nat (length run)).
Proof.
  revert pos size. induction fuel as [|fuel IH];
    intros pos size Hpos Hsize Hroom Hfuel; [lia|].
  cbn [dry_run]. destruct (Z.ltb_spec pos len) as [Hlt|Hge].
  - destruct (ahead_cons name len Hlen pos ltac:(lia)) as (c & Hc & Hcons).
    rewrite Hc, Hcons in *. cbn [bind take_while].
    destruct (Bool.eqb (iskey c) want).
    + rewrite !wrap_small by lia.
      rewrite IH; [|lia|lia|lia|simpl in Hfuel; lia].
      simpl length. f_equal. f_equal; lia.
    + simpl. f_equal. f_equal; lia.
  - rewrite ahead_end by lia. simpl. f_equal. f_equal; lia.
Qed.

(** The [while (true)] loop of [dry] ends at [len], having counted the
    characters [kept] lists. *)
Lemma dry_loop_spec budget fuel pos size :
  0 <= pos <= len -> 0 <= size -> size + (len - pos) < SIZE_MOD ->
  (length (ahead name len pos) < fuel)%nat ->
  (Z.to_nat len < budget)%nat ->
  dry_loop fuel budget name len pos size =
  Ok (len, size + Z.of_nat (length (kept fuel (ahead name len pos)))).
Proof.
  intros Hpos Hsize Hroom Hfuel Hbudget.
  revert pos size Hpos Hsize Hroom Hfuel. induction fuel as [|fuel IH];
    intros pos size Hpos Hsize Hroom Hfuel; [lia|].
  cbn [dry_loop kept].
  pose proof (length_ahead name len Hlen pos Hpos) as Hal.
  rewrite match_keywords_refines by (auto using keywords_short).
  cbn [bind].
  pose proof (strip_ahead_le keywords (ahead name len pos)) as Hstrip.
  destruct (strip_ahead keywords (ahead name len pos)) as [|n].
  - change (negb (Z.of_nat 0 =? 0)) with false. cbv iota.
    pose proof (dry_run_spec true budget pos size Hpos Hsize Hroom
                  ltac:(lia)) as Hrun1.
    set (s := ahead name len pos) in *. cbv zeta in Hrun1.
    rewrite (take_while_ext _ iskey s eqb_iskey_true) in Hrun1.
    rewrite Hrun1. cbn [bind]. clear Hrun1.
    pose proof (length_take_while iskey s) as Hk.
    set (k := take_while iskey s) in *.
    assert (Hs1 : ahead name len (pos + Z.of_nat (length k))
                  = drop_while iskey s).
    { unfold s, k. rewrite <- ahead_drop by lia. apply drop_take_while. }
    pose proof (dry_run_spec false budget (pos + Z.of_nat (length k))
                  (size + Z.of_nat (length k)) ltac:(lia) ltac:(lia)
                  ltac:(lia)) as Hrun2.
    cbv zeta in Hrun2. rewrite Hs1 in Hrun2.
    rewrite (take_while_ext _ is_sep _ eqb_iskey_false) in Hrun2.
    pose proof (take_drop_while iskey s) as Hsplit. fold k in Hsplit.
    assert (Hl1 : length s = (length k + length (drop_while iskey s))%nat)
      by (rewrite <- Hsplit at 1; by rewrite length_app).
    rewrite Hrun2 by lia. cbn [bind]. clear Hrun2.
    set (s1 := drop_while iskey s) in *.
    pose proof (length_take_while is_sep s1) as Hd.
    set (d := take_while is_sep s1) in *.
    assert (Hs2 : ahead name len (pos + Z.of_nat (length k)
                                  + Z.of_nat (length d))
                  = drop_while is_sep s1).
    { rewrite <- (ahead_drop name len (pos + Z.of_nat (length k))) by lia.
      rewrite Hs1. apply drop_take_while. }
    rewrite !length_app.
    destruct (Z.eqb_spec (pos + Z.of_nat (length k) + Z.of_nat (length d)) len)
      as [Hend|Hmore].
    + rewrite <- Hs2, ahead_end, kept_nil by lia. simpl length.
      f_equal. f_equal; lia.
    + assert (Hne : s <> []).
      { intros Hnil. rewrite Hnil in Hal. simpl in Hal.
        rewrite Hnil in Hl1. simpl in Hl1. lia. }
      pose proof (run_progress s Hne) as Hprog. fold k s1 d in Hprog.
      rewrite IH; try lia.
      * rewrite Hs2. f_equal. f_equal. lia.
      * pose proof (length_ahead name len Hlen
                      (pos + Z.of_nat (length k) + Z.of_nat (length d))
                      ltac:(lia)). lia.
  - destruct (Z.eqb_spec (Z.of_nat (S n)) 0); [lia|]. cbn [negb].
    rewrite wrap_small by lia.
    rewrite IH; try lia.
    + rewrite <- ahead_drop by lia. done.
    + pose proof (length_ahead name len Hlen (pos + Z.of_nat (S n))
                    ltac:(lia)). lia.
Qed.

End Scan.

(** ** Trailing spaces *)

Lemma trailing_spaces_snoc l c :
  trailing_spaces (l ++ [c]) =
  if is_space c then S (trailing_spaces l) else 0%nat.
Proof.
  unfold trailing_spaces. rewrite reverse_snoc. simpl.
  by destruct (is_space c).
Qed.

Lemma trailing_spaces_le l : (trailing_spaces l <= length l)%nat.
Proof.
  unfold trailing_spaces. pose proof (length_take_while is_space (reverse l)).
  rewrite length_reverse in *. lia.
Qed.

(** The last loop of [dry] takes one off [size] for each space that ends
    the first [pos] characters of the source. *)
Lemma dry_strip_spec name fuel pos size :
  0 <= pos <= Z.of_nat (length (data_ name)) -> pos < SIZE_MOD ->
  (Z.to_nat pos < fuel)%nat ->
  0 <= size < SIZE_MOD ->
  dry_strip fuel name pos size =
  Ok (wrap (size - Z.of_nat (trailing_spaces
                               (take (Z.to_nat pos) (data_ name))))).
Proof.
  revert pos size. induction fuel as [|fuel IH];
    intros pos size Hpos Hmax Hfuel Hsize; [lia|].
  cbn [dry_strip]. destruct (Z.eqb_spec pos 0) as [->|Hne]; cbn [negb].
  - simpl. rewrite Z.sub_0_r, wrap_small by lia. done.
  - rewrite (wrap_small (pos - 1)) by lia.
    destruct (lookup_lt_is_Some_2 (data_ name) (Z.to_nat (pos - 1))
                ltac:(lia)) as [c Hc].
    rewrite (get_lookup _ _ _ Hc). cbn [bind].
    replace (Z.to_nat pos) with (S (Z.to_nat (pos - 1))) by lia.
    rewrite (take_S_r _ _ _ Hc), trailing_spaces_snoc.
    unfold is_space at 1. destruct (Ascii.eqb c SPACE).
    + rewrite IH by (try lia; apply wrap_range).
      rewrite wrap_sub_l. f_equal. f_equal. lia.
    + rewrite Z.sub_0_r, wrap_small by lia. done.
Qed.

Lemma length_kept fuel s : (length (kept fuel s) <= length s)%nat.
Proof.
  revert s. induction fuel as [|fuel IH]; intros s; cbn [kept]; [simpl; lia|].
  pose proof (strip_ahead_le keywords s).
  destruct (strip_ahead keywords s) as [|n].
  - rewrite !length_app.
    pose proof (f_equal length (take_drop_while iskey s)) as H1.
    pose proof (f_equal length (take_drop_while is_sep (drop_while iskey s)))
      as H2.
    rewrite length_app in H1, H2.
    specialize (IH (drop_while is_sep (drop_while iskey s))). lia.
  - specialize (IH (drop (S n) s)). rewrite length_drop in IH. lia.
Qed.

(** The value of [dry()] under MSVC: the characters kept, less the
    spaces that end the source, in [std::size_t] arithmetic. *)
Lemma dry_msvc_spec name :
  Z.of_nat (length (data_ name)) = capacity_ name ->
  1 <= capacity_ name < SIZE_MOD ->
  dry_msvc name =
  Ok (wrap (Z.of_nat (length (kept (S (length (text name))) (text name)))
            - Z.of_nat (trailing_spaces (text name)))).
Proof.
  intros Hdata Hcap. unfold dry_msvc.
  rewrite (wrap_small (capacity_ name - 1)) by lia.
  set (len := capacity_ name - 1).
  assert (Hlen : 0 <= len <= Z.of_nat (length (data_ name)))
    by (unfold len; lia).
  assert (Htext : ahead name len 0 = text name) by reflexivity.
  assert (Hl : length (text name) = Z.to_nat len).
  { rewrite <- Htext.
    pose proof (length_ahead name len Hlen 0 ltac:(lia)). lia. }
  rewrite (dry_loop_spec name len Hlen ltac:(unfold len; lia))
    by (rewrite ?Htext; lia).
  cbn [bind]. rewrite Htext, <- Hl.
  pose proof (trailing_spaces_le (text name)).
  rewrite dry_strip_spec; try lia.
  - rewrite Z.add_0_l. unfold text. fold len. done.
  - pose proof (length_kept (S (length (text name))) (text name)). lia.
Qed.

(** ** The copying pass *)

Lemma length_holding cap out :
  0 <= cap -> Z.of_nat (length out) <= cap ->
  Z.of_nat (length (data_ (holding cap out))) = cap.
Proof.
  intros Hcap Hout. unfold holding. cbn [data_].
  rewrite length_app, length_replicate. lia.
Qed.

Lemma put_holding cap out c :
  Z.of_nat (length out) < cap -> cap < SIZE_MOD ->
  exists d, put (holding cap out) (Z.of_nat (length out)) c = Ok d /\
            with_size d (wrap (Z.of_nat (length out) + 1))
            = holding cap (out ++ [c]).
Proof.
  intros Hout Hc. unfold put. rewrite length_holding by lia.
  destruct (Z.ltb_spec (Z.of_nat (length out)) cap); [|lia].
  eexists. split; [reflexivity|].
  rewrite wrap_small by lia.
  unfold with_size, holding. cbn [capacity_ data_ size_].
  rewrite length_app. simpl length. f_equal; [|lia].
  rewrite Nat2Z.id, insert_app_r_alt by lia.
  rewrite Nat.sub_diag.
  replace (Z.to_nat cap - length out)%nat
    with (S (Z.to_nat cap - (length out + 1))) by lia.
  simpl. by rewrite <- app_assoc.
Qed.

Section Tidy.

Variables (name : fixed_string_t) (len L cap : Z).

Hypothesis Hlen : 0 <= len <= Z.of_nat (length (data_ name)).
Hypothesis Hmax : len < SIZE_MOD.
Hypothesis HL : 0 <= L < cap.
Hypothesis Hcap : cap < SIZE_MOD.

(** A run loop of [tidy] copies the run ahead, as far as [L] allows. *)
Lemma tidy_run_spec want fuel pos out :
  0 <= pos <= len -> Z.of_nat (length out) <= L ->
  (length (ahead name len pos) < fuel)%nat ->
  let run := take_while (fun c => Bool.eqb (iskey c) want)
               (ahead name len pos) in
  let j := (length run `min` (Z.to_nat L - length out))%nat in
  tidy_run fuel want name len L pos (holding cap out) =
  Ok (pos + Z.of_nat j, holding cap (out ++ take j run)).
Proof.
  revert pos out. induction fuel as [|fuel IH];
    intros pos out Hpos Hout Hfuel; [lia|].
  cbn [tidy_run]. cbv zeta.
  change (size_ (holding cap out)) with (Z.of_nat (length out)).
  destruct (Z.ltb_spec (Z.of_nat (length out)) L) as [Hroom|Hfull];
    destruct (Z.ltb_spec pos len) as [Hlt|Hge]; cbn [andb].
  - destruct (ahead_cons name len Hlen pos ltac:(lia)) as (c & Hc & Hcons).
    rewrite Hc, Hcons in *. cbn [bind take_while].
    destruct (Bool.eqb (iskey c) want).
    + destruct (put_holding cap out c ltac:(lia) Hcap) as (d & -> & Hd).
      cbn [bind]. rewrite Hd, (wrap_small (pos + 1)) by lia.
      rewrite IH; [|lia|rewrite length_app; simpl; lia|simpl in Hfuel; lia].
      cbv zeta. rewrite length_app. simpl length.
      set (run := take_while _ (ahead name len (pos + 1))).
      replace (S (length run) `min` (Z.to_nat L - length out))%nat
        with (S (length run `min` (Z.to_nat L - (length out + 1))))%nat by lia.
      rewrite <- app_assoc. simpl. f_equal. f_equal. lia.
    + simpl. rewrite Z.add_0_r, app_nil_r. done.
  - rewrite ahead_end by lia. simpl. rewrite Z.add_0_r, app_nil_r. done.
  - replace (Z.to_nat L - length out)%nat with 0%nat by lia.
    rewrite Nat.min_0_r, take_0, Z.add_0_r, app_nil_r. done.
  - replace (Z.to_nat L - length out)%nat with 0%nat by lia.
    rewrite Nat.min_0_r, take_0, Z.add_0_r, app_nil_r. done.
Qed.

(** The [while (true)] loop of [tidy] leaves in [dst] the first [L]
    characters of what was there followed by what [kept] lists. *)
Lemma tidy_loop_spec budget fuel pos out :
  0 <= pos <= len -> Z.of_nat (length out) <= L ->
  (length (ahead name len pos) < fuel)%nat ->
  (Z.to_nat len < budget)%nat ->
  exists pos',
    tidy_loop fuel budget name len L pos (holding cap out) =
    Ok (pos', holding cap
                (take (Z.to_nat L) (out ++ kept fuel (ahead name len pos)))).
Proof.
  intros Hpos Hout Hfuel Hbudget.
  revert pos out Hpos Hout Hfuel. induction fuel as [|fuel IH];
    intros pos out Hpos Hout Hfuel; [lia|].
  cbn [tidy_loop kept].
  pose proof (length_ahead name len Hlen pos Hpos) as Hal.
  rewrite (match_keywords_refines name len Hlen Hmax)
    by (auto using keywords_short).
  cbn [bind].
  pose proof (strip_ahead_le keywords (ahead name len pos)) as Hstrip.
  destruct (strip_ahead keywords (ahead name len pos)) as [|n].
  - change (negb (Z.of_nat 0 =? 0)) with false. cbv iota.
    pose proof (tidy_run_spec true budget pos out Hpos Hout ltac:(lia))
      as Hrun1.
    set (s := ahead name len pos) in *. cbv zeta in Hrun1.
    rewrite (take_while_ext _ iskey s eqb_iskey_true) in Hrun1.
    rewrite Hrun1. cbn [bind]. clear Hrun1.
    pose proof (length_take_while iskey s) as Hk.
    pose proof (take_drop_while iskey s) as Hsplit1.
    set (k := take_while iskey s) in *.
    set (s1 := drop_while iskey s) in *.
    set (j1 := (length k `min` (Z.to_nat L - length out))%nat).
    assert (Hj1def : j1 = (length k `min` (Z.to_nat L - length out))%nat)
      by done.
    clearbody j1.
    assert (Hj1 : (j1 <= length k)%nat) by lia.
    assert (Hout1 : length (out ++ take j1 k) = (length out + j1)%nat)
      by (rewrite length_app, length_take; lia).
    pose proof (length_ahead name len Hlen (pos + Z.of_nat j1) ltac:(lia))
      as Hal1.
    pose proof (tidy_run_spec false budget (pos + Z.of_nat j1)
                  (out ++ take j1 k) ltac:(lia) ltac:(lia)
                  ltac:(lia)) as Hrun2.
    cbv zeta in Hrun2.
    rewrite (take_while_ext _ is_sep _ eqb_iskey_false) in Hrun2.
    rewrite Hrun2. cbn [bind]. clear Hrun2.
    set (run2 := take_while is_sep (ahead name len (pos + Z.of_nat j1))).
    set (j2 := (length run2 `min`
                  (Z.to_nat L - length (out ++ take j1 k)))%nat).
    change (size_ (holding cap ((out ++ take j1 k) ++ take j2 run2)))
      with (Z.of_nat (length ((out ++ take j1 k) ++ take j2 run2))).
    assert (Hj2def : j2 = (length run2
                             `min` (Z.to_nat L - (length out + j1)))%nat)
      by (unfold j2; by rewrite Hout1).
    clearbody j2.
    assert (Hj2 : (j2 <= length run2)%nat) by lia.
    assert (Hout2 : length ((out ++ take j1 k) ++ take j2 run2)
                    = (length out + j1 + j2)%nat)
      by (rewrite length_app, Hout1, length_take; lia).
    rewrite Hout2.
    destruct (decide (j1 < length k)%nat) as [Hcut1|Hall1].
    + (* the identifier run fills the buffer *)
      assert (Hfull : (length out + j1)%nat = Z.to_nat L) by lia.
      assert (Hj20 : j2 = 0%nat) by lia.
      rewrite Hj20, take_0, app_nil_r, Nat.add_0_r.
      destruct (Z.eqb_spec (Z.of_nat (length out + j1)) L); [|lia].
      cbn [orb]. eexists. f_equal. f_equal. f_equal.
      rewrite take_app_ge by lia. f_equal.
      rewrite take_app_le by lia. f_equal. lia.
    + assert (Hj1k : j1 = length k) by lia.
      assert (Htk : take j1 k = k) by (apply take_ge; lia).
      assert (Hs1 : ahead name len (pos + Z.of_nat j1) = s1).
      { rewrite Hj1k. unfold s1, k, s.
        rewrite <- ahead_drop by lia. apply drop_take_while. }
      unfold run2 in *. rewrite Hs1 in *. clear run2.
      set (d := take_while is_sep s1) in *.
      pose proof (take_drop_while is_sep s1) as Hsplit2. fold d in Hsplit2.
      set (s2 := drop_while is_sep s1) in *.
      rewrite Htk in *.
      destruct (Z.eqb_spec (Z.of_nat (length out + j1 + j2)) L) as [Hfull|Hroom].
      * cbn [orb]. eexists. f_equal. f_equal. f_equal.
        rewrite <- app_assoc. rewrite take_app_ge by lia. f_equal.
        rewrite take_app_ge by lia. f_equal.
        rewrite take_app_le by lia. f_equal. lia.
      * cbn [orb].
        assert (Hj2d : j2 = length d) by lia.
        assert (Htd : take j2 d = d) by (apply take_ge; lia).
        rewrite Htd in Hout2 |- *.
        assert (Hs2 : ahead name len (pos + Z.of_nat j1 + Z.of_nat j2) = s2).
        { rewrite <- (ahead_drop name len (pos + Z.of_nat j1)) by lia.
          rewrite Hs1, Hj2d. apply drop_take_while. }
        assert (Hls : length s = (length k + length d + length s2)%nat).
        { rewrite <- Hsplit1, <- Hsplit2, !length_app. lia. }
        destruct (Z.eqb_spec (pos + Z.of_nat j1 + Z.of_nat j2) len)
          as [Hend|Hmore].
        -- eexists. f_equal. f_equal. f_equal.
           assert (Hnil : s2 = []).
           { rewrite <- Hs2. apply ahead_end. lia. }
           rewrite Hnil, kept_nil, app_nil_r, app_assoc.
           symmetry. apply take_ge. rewrite Hout2. lia.
        -- destruct (IH (pos + Z.of_nat j1 + Z.of_nat j2) ((out ++ k) ++ d))
             as (pos' & Hgo); [lia|lia| |].
           { rewrite Hs2.
             assert (Hne : s <> []).
             { intros Hnil. rewrite Hnil in Hls. simpl in Hls.
               rewrite Hnil in Hal. simpl in Hal. lia. }
             pose proof (run_progress s Hne) as Hprog.
             fold k s1 d in Hprog. lia. }
           exists pos'. rewrite Hgo, Hs2. f_equal. f_equal. f_equal.
           by rewrite <- !app_assoc.
  - destruct (Z.eqb_spec (Z.of_nat (S n)) 0); [lia|]. cbn [negb].
    rewrite wrap_small by lia.
    destruct (IH (pos + Z.of_nat (S n)) out) as (pos' & Hgo); [lia|lia| |].
    { pose proof (length_ahead name len Hlen (pos + Z.of_nat (S n))
                    ltac:(lia)). lia. }
    exists pos'. rewrite Hgo. rewrite <- ahead_drop by lia. done.
Qed.

End Tidy.

Lemma holding_nil cap : holding cap [] = fixed_string_default cap.
Proof. unfold holding, fixed_string_default. simpl. by rewrite Nat.sub_0_r. Qed.

Lemma put_holding_terminator cap out i :
  Z.of_nat (length out) <= i < cap ->
  put (holding cap out) i NUL = Ok (holding cap out).
Proof.
  intros Hi. unfold put. rewrite length_holding by lia.
  destruct (Z.ltb_spec i cap); [|lia].
  f_equal. unfold holding. cbn [capacity_ data_ size_]. f_equal.
  apply list_insert_id. rewrite lookup_app_r by lia.
  apply lookup_replicate_2. lia.
Qed.

Lemma view_holding cap out :
  Z.of_nat (length out) <= cap -> view (holding cap out) = out.
Proof.
  intros H. unfold view, holding. cbn [data_ size_].
  rewrite Nat2Z.id. apply take_app_length.
Qed.

Lemma wf_holding cap out :
  Z.of_nat (length out) < cap -> cap < SIZE_MOD -> wf (holding cap out).
Proof.
  intros H Hc. unfold wf. rewrite length_holding by lia.
  cbn [capacity_ size_ holding]. lia.
Qed.

(** Without an array to write to, the copying loops write nothing. *)
Lemma tidy_run_no_array fuel want name len L pos dst :
  data_ dst = [] -> 0 <= size_ dst ->
  (exists e, tidy_run fuel want name len L pos dst = Err e) \/
  (exists pos', tidy_run fuel want name len L pos dst = Ok (pos', dst)).
Proof.
  intros Hdata Hsize. revert pos. induction fuel as [|fuel IH]; intros pos.
  - left. by eexists.
  - cbn [tidy_run].
    destruct ((size_ dst <? L) && (pos <? len)); [|right; by eexists].
    destruct (get name pos) as [c|e]; cbn [bind]; [|left; by eexists].
    destruct (Bool.eqb (iskey c) want); [|right; by eexists].
    unfold put. rewrite Hdata. simpl length.
    destruct (Z.ltb_spec (size_ dst) (Z.of_nat 0)); [lia|].
    left. by eexists.
Qed.

Lemma tidy_loop_no_array fuel budget name len L pos dst :
  data_ dst = [] -> 0 <= size_ dst ->
  (exists e, tidy_loop fuel budget name len L pos dst = Err e) \/
  (exists pos', tidy_loop fuel budget name len L pos dst = Ok (pos', dst)).
Proof.
  intros Hdata Hsize. revert pos. induction fuel as [|fuel IH]; intros pos.
  - left. by eexists.
  - cbn [tidy_loop].
    destruct (match_keywords name pos len keywords) as [n|e]; cbn [bind];
      [|left; by eexists].
    destruct (negb (n =? 0)); [apply IH|].
    destruct (tidy_run_no_array budget true name len L pos dst Hdata Hsize)
      as [[e ->]|[pos1 ->]]; cbn [bind]; [left; by eexists|].
    destruct (tidy_run_no_array budget false name len L pos1 dst Hdata Hsize)
      as [[e ->]|[pos2 ->]]; cbn [bind]; [left; by eexists|].
    destruct ((size_ dst =? L) || (pos2 =? len)); [right; by eexists|].
    apply IH.
Qed.

(** The value of [tidy()] under MSVC, when [dry()] leaves room for the
    terminator. *)
Lemma tidy_msvc_spec name L :
  Z.of_nat (length (data_ name)) = capacity_ name ->
  1 <= capacity_ name < SIZE_MOD ->
  dry_msvc name = Ok L -> L + 1 < SIZE_MOD ->
  tidy_msvc name =
  Ok (holding (L + 1)
        (take (Z.to_nat L) (kept (S (length (text name))) (text name)))).
Proof.
  intros Hdata Hcap Hdry HL. unfold tidy_msvc. rewrite Hdry. cbn [bind].
  assert (HL0 : 0 <= L).
  { rewrite dry_msvc_spec in Hdry by done. injection Hdry as <-.
    apply wrap_range. }
  rewrite (wrap_small (capacity_ name - 1)), (wrap_small (L + 1)) by lia.
  set (len := capacity_ name - 1).
  assert (Hlen : 0 <= len <= Z.of_nat (length (data_ name)))
    by (unfold len; lia).
  assert (Htext : ahead name len 0 = text name) by reflexivity.
  assert (Hl : length (text name) = Z.to_nat len).
  { rewrite <- Htext.
    pose proof (length_ahead name len Hlen 0 ltac:(lia)). lia. }
  rewrite <- holding_nil.
  destruct (tidy_loop_spec name len L (L + 1) Hlen ltac:(unfold len; lia)
              ltac:(lia) ltac:(lia) (S (Z.to_nat len)) (S (Z.to_nat len))
              0 []) as (pos' & ->); [lia|simpl; lia|rewrite Htext; lia|lia|].
  cbn [bind]. rewrite app_nil_l, Htext, <- Hl.
  apply put_holding_terminator. rewrite length_take. lia.
Qed.

(** When [dry()] wraps to [npos] the destination has no element, and
    [tidy()] does not build. *)
Lemma tidy_msvc_npos name :
  dry_msvc name = Ok npos -> exists e, tidy_msvc name = Err e.
Proof.
  intros Hdry. unfold tidy_msvc. rewrite Hdry. cbn [bind].
  change (wrap (npos + 1)) with 0.
  destruct (tidy_loop_no_array
              (S (Z.to_nat (wrap (capacity_ name - 1))))
              (S (Z.to_nat (wrap (capacity_ name - 1))))
              name (wrap (capacity_ name - 1)) npos 0
              (fixed_string_default 0) eq_refl ltac:(simpl; lia))
    as [[e ->]|[pos' ->]]; cbn [bind]; [by eexists|].
  by eexists.
Qed.

(** ** Keywords as whole words *)

Lemma keywords_alnum kw : kw ∈ keywords -> Forall (fun c => iskey c = true) kw.
Proof.
  unfold keywords. rewrite !elem_of_cons, elem_of_nil.
  intros [->|[->|[->|[->|[]]]]]; repeat constructor.
Qed.

Lemma keywords_nonempty kw : kw ∈ keywords -> kw <> [].
Proof.
  unfold keywords. rewrite !elem_of_cons, elem_of_nil.
  intros [->|[->|[->|[->|[]]]]]; discriminate.
Qed.

Lemma take_while_app_all p a b :
  Forall (fun c => p c = true) a ->
  take_while p (a ++ b) = a ++ take_while p b.
Proof.
  induction 1 as [|c a Hc Ha IH]; simpl; [done|]. by rewrite Hc, IH.
Qed.

Lemma take_while_stop p b :
  match b with [] => True | c :: _ => p c = false end ->
  take_while p b = [].
Proof. destruct b as [|c b]; simpl; [done|]. by intros ->. Qed.

(** A keyword stands as a whole word at the head of [l] exactly when it
    is the identifier run that starts [l]. *)
Lemma word_at_run kw l :
  Forall (fun c => iskey c = true) kw ->
  word_at kw l = true <-> take_while iskey l = kw.
Proof.
  intros Hkw. unfold word_at. split.
  - intros H. apply andb_true_iff in H as [Hs Hnext].
    apply starts_with_prefix in Hs. rewrite Hs.
    rewrite take_while_app_all by done.
    rewrite take_while_stop; [by rewrite app_nil_r|].
    destruct (drop (length kw) l); [done|]. by apply negb_true_iff.
  - intros <-. apply andb_true_iff. split.
    + rewrite <- (take_drop_while iskey l) at 2. apply starts_with_app.
    + rewrite drop_take_while.
      destruct (drop_while iskey l) as [|d tl] eqn:Hd; [done|].
      apply negb_true_iff. by apply (drop_while_head _ _ _ _ Hd).
Qed.

Lemma word_at_sep kw c l :
  kw ∈ keywords -> iskey c = false -> word_at kw (c :: l) = false.
Proof.
  intros Hin Hc. destruct (word_at kw (c :: l)) eqn:H; [|done].
  apply word_at_run in H; [|by apply keywords_alnum].
  simpl in H. rewrite Hc in H. apply keywords_nonempty in Hin. congruence.
Qed.

Lemma match_ahead_word_at kw s :
  kw <> [] -> match_ahead kw s = 0%nat <-> word_at kw s = false.
Proof.
  intros Hne. unfold match_ahead, word_at.
  assert (0 < length kw)%nat by (destruct kw; [done|simpl; lia]).
  destruct (starts_with kw s); simpl; [|done].
  destruct (drop (length kw) s) as [|d tl]; [split; [lia|done]|].
  destruct (iskey d); simpl; [done|].
  destruct (Ascii.eqb d SPACE); split; (lia || done).
Qed.

Lemma strip_ahead_none subs s :
  (forall kw, kw ∈ subs -> kw <> []) ->
  strip_ahead subs s = 0%nat ->
  forall kw, kw ∈ subs -> word_at kw s = false.
Proof.
  induction subs as [|sub subs IH]; intros Hne H kw Hin.
  - by apply elem_of_nil in Hin.
  - simpl in H. destruct (match_ahead sub s) eqn:Hm; [|done].
    apply elem_of_cons in Hin as [->|Hin].
    + apply match_ahead_word_at; [apply Hne; left|done].
    + apply IH; [|done|done]. intros k Hk. apply Hne. by right.
Qed.

Lemma no_word_at_check l :
  (forall kw, kw ∈ keywords -> word_at kw l = false) ->
  forallb (fun kw => negb (word_at kw l)) keywords = true.
Proof.
  intros H. apply forallb_forall. intros kw Hin.
  apply negb_true_iff, H. by apply list_elem_of_In.
Qed.

Lemma keyword_free_alnum l rest :
  Forall (fun c => iskey c = true) l ->
  keyword_free true (l ++ rest) = keyword_free true rest.
Proof. induction 1 as [|c l Hc Hl IH]; simpl; [done|]. by rewrite Hc. Qed.

Lemma keyword_free_seps b l rest :
  Forall (fun c => is_sep c = true) l -> l <> [] ->
  keyword_free b (l ++ rest) = keyword_free false rest.
Proof.
  intros Hl. revert b. induction Hl as [|c l Hc Hl IH]; intros b Hne; [done|].
  apply negb_true_iff in Hc. cbn [app keyword_free]. rewrite Hc.
  rewrite no_word_at_check by (intros kw Hin; by apply word_at_sep).
  rewrite orb_true_r. cbn [andb].
  destruct l as [|c' l]; [done|]. by apply IH.
Qed.

(** After the identifier run comes a separator, or nothing. *)
Lemma drop_while_alnum_stop s :
  match drop_while iskey s with [] => True | c :: _ => iskey c = false end.
Proof.
  destruct (drop_while iskey s) as [|c tl] eqn:H; [done|].
  by apply (drop_while_head _ _ _ _ H).
Qed.

Lemma drop_while_sep_stop s :
  match drop_while is_sep s with [] => True | c :: _ => iskey c = true end.
Proof.
  destruct (drop_while is_sep s) as [|c tl] eqn:H; [done|].
  apply drop_while_head in H. unfold is_sep in H.
  by apply negb_false_iff in H.
Qed.

(** What [kept] lists holds no keyword as a whole word. *)
Lemma kept_keyword_free fuel s : keyword_free false (kept fuel s) = true.
Proof.
  revert s. induction fuel as [|fuel IH]; intros s; [done|].
  cbn [kept]. destruct (strip_ahead keywords s) as [|n] eqn:Hstrip; [|apply IH].
  pose proof (strip_ahead_none keywords s keywords_nonempty Hstrip) as Hnone.
  set (k := take_while iskey s).
  set (s1 := drop_while iskey s).
  set (d := take_while is_sep s1).
  set (s2 := drop_while is_sep s1).
  pose proof (take_while_Forall iskey s) as Hk. fold k in Hk.
  pose proof (take_while_Forall is_sep s1) as Hd. fold d in Hd.
  pose proof (drop_while_alnum_stop s) as Hs1. fold s1 in Hs1.
  (* the tail [d ++ kept fuel s2] is empty or starts with a separator *)
  assert (Htail : keyword_free true (d ++ kept fuel s2) = true /\
                  keyword_free false (d ++ kept fuel s2) = true /\
                  match d ++ kept fuel s2 with
                  | [] => True
                  | c :: _ => iskey c = false
                  end).
  { destruct d as [|c d'] eqn:Hdeq.
    - assert (Hs2 : s2 = s1).
      { unfold s2. destruct s1 as [|c tl]; [done|]. simpl.
        unfold d in Hdeq. simpl in Hdeq. unfold is_sep in *.
        rewrite Hs1 in *. done. }
      assert (Hnil : s1 = []).
      { destruct s1 as [|c tl]; [done|]. unfold d in Hdeq. simpl in Hdeq.
        unfold is_sep in Hdeq. rewrite Hs1 in Hdeq. done. }
      rewrite Hs2, Hnil, kept_nil. done.
    - rewrite 2!keyword_free_seps by done. rewrite IH.
      inversion Hd as [|? ? Hc _]; subst. unfold is_sep in Hc.
      apply negb_true_iff in Hc. done. }
  destruct Htail as (Ht1 & Ht2 & Hhead).
  destruct k as [|c k'] eqn:Hkeq; [exact Ht2|].
  inversion Hk as [|? ? Hc Hk']; subst.
  cbn [app keyword_free]. rewrite Hc.
  rewrite (keyword_free_alnum k' _ Hk'), Ht1, andb_true_r.
  cbn [orb]. apply no_word_at_check. intros kw Hin.
  destruct (word_at kw ((c :: k') ++ d ++ kept fuel s2)) eqn:Hw; [|done].
  apply word_at_run in Hw; [|by apply keywords_alnum].
  rewrite take_while_app_all in Hw by (by constructor).
  rewrite take_while_stop in Hw by done. rewrite app_nil_r in Hw.
  assert (Hs : word_at kw s = true).
  { apply word_at_run; [by apply keywords_alnum|]. fold k. by rewrite Hkeq. }
  rewrite Hnone in Hs by done. discriminate.
Qed.

(** ** Spaces at the end of the source *)

Lemma take_while_app p a b :
  take_while p (a ++ b) =
  if forallb p a then a ++ take_while p b else take_while p a.
Proof.
  induction a as [|c a IH]; simpl; [done|].
  destruct (p c); simpl; [|done]. rewrite IH. by destruct (forallb p a).
Qed.

Lemma forallb_reverse p (l : list ascii) :
  forallb p (reverse l) = forallb p l.
Proof.
  induction l as [|c l IH]; [done|].
  rewrite reverse_cons, forallb_app, IH. simpl.
  rewrite andb_true_r. apply andb_comm.
Qed.

Lemma trailing_spaces_app x y :
  trailing_spaces (x ++ y) =
  if forallb is_space y then (length y + trailing_spaces x)%nat
  else trailing_spaces y.
Proof.
  unfold trailing_spaces. rewrite reverse_app, take_while_app.
  rewrite forallb_reverse. destruct (forallb is_space y); [|done].
  by rewrite length_app, length_reverse.
Qed.

Lemma forallb_Forall p (l : list ascii) :
  forallb p l = true <-> Forall (fun c => p c = true) l.
Proof.
  induction l as [|c l IH]; simpl.
  - split; [constructor|done].
  - rewrite andb_true_iff, IH. split.
    + intros [? ?]. by constructor.
    + by inversion 1.
Qed.

Lemma take_while_all p l :
  Forall (fun c => p c = true) l -> take_while p l = l.
Proof. induction 1 as [|c l Hc Hl IH]; simpl; [done|]. by rewrite Hc, IH. Qed.

Lemma drop_while_all p l :
  Forall (fun c => p c = true) l -> drop_while p l = [].
Proof. induction 1 as [|c l Hc Hl IH]; simpl; [done|]. by rewrite Hc. Qed.

Lemma is_space_sep c : is_space c = true -> is_sep c = true.
Proof.
  unfold is_space, is_sep. intros H. apply Ascii.eqb_eq in H as ->. reflexivity.
Qed.

Lemma alnum_not_space c : iskey c = true -> is_space c = false.
Proof.
  intros H. destruct (is_space c) eqn:Hs; [|done].
  apply is_space_sep in Hs. unfold is_sep in Hs. rewrite H in Hs. done.
Qed.

Lemma trailing_spaces_none x :
  Forall (fun c => is_space c = false) x -> trailing_spaces x = 0%nat.
Proof.
  induction x as [|c x IH] using rev_ind; [done|].
  intros H. apply Forall_app in H as [_ H]. inversion H as [|? ? Hc _]; subst.
  by rewrite trailing_spaces_snoc, Hc.
Qed.

(** Spaces that follow characters other than spaces. *)
Lemma trailing_spaces_after x y :
  Forall (fun c => is_space c = false) x ->
  (trailing_spaces (x ++ y) <= length y)%nat.
Proof.
  intros Hx. rewrite trailing_spaces_app.
  destruct (forallb is_space y).
  - rewrite trailing_spaces_none by done. lia.
  - apply trailing_spaces_le.
Qed.

Lemma strip_ahead_zero subs s :
  (forall kw, kw ∈ subs -> kw <> []) ->
  (forall kw, kw ∈ subs -> word_at kw s = false) ->
  strip_ahead subs s = 0%nat.
Proof.
  induction subs as [|sub subs IH]; intros Hne H; [done|]. simpl.
  assert (Hm : match_ahead sub s = 0%nat).
  { apply match_ahead_word_at; [apply Hne; left|apply H; left]. }
  rewrite Hm. apply IH; intros kw Hin; [apply Hne|apply H]; by right.
Qed.

Lemma strip_ahead_sep c s :
  iskey c = false -> strip_ahead keywords (c :: s) = 0%nat.
Proof.
  intros Hc. apply strip_ahead_zero; [apply keywords_nonempty|].
  intros kw Hin. by apply word_at_sep.
Qed.

(** A source of separators only is kept as it is. *)
Lemma kept_seps fuel y :
  Forall (fun c => is_sep c = true) y -> (length y < fuel)%nat ->
  kept fuel y = y.
Proof.
  intros Hy Hfuel. destruct fuel as [|fuel]; [lia|].
  destruct y as [|c y]; [apply kept_nil|].
  cbn [kept]. inversion Hy as [|? ? Hc Hy']; subst.
  rewrite strip_ahead_sep by (by apply negb_true_iff in Hc).
  assert (Hk : take_while iskey (c :: y) = []).
  { simpl. unfold is_sep in Hc. apply negb_true_iff in Hc. by rewrite Hc. }
  assert (Hs1 : drop_while iskey (c :: y) = c :: y).
  { simpl. unfold is_sep in Hc. apply negb_true_iff in Hc. by rewrite Hc. }
  rewrite Hk, Hs1, take_while_all, drop_while_all, kept_nil by done.
  by rewrite app_nil_r.
Qed.

Lemma strip_ahead_some subs s n :
  strip_ahead subs s = S n ->
  exists kw, kw ∈ subs /\ match_ahead kw s = S n.
Proof.
  induction subs as [|sub subs IH]; simpl; [done|].
  destruct (match_ahead sub s) as [|m] eqn:Hm.
  - intros H. destruct (IH H) as (kw & Hin & Hkw).
    exists kw. split; [by right|done].
  - intros [= <-]. exists sub. split; [left|done].
Qed.

Lemma keywords_no_space kw :
  kw ∈ keywords -> Forall (fun c => is_space c = false) kw.
Proof.
  intros Hin. eapply Forall_impl; [by apply keywords_alnum|].
  intros c Hc. by apply alnum_not_space.
Qed.

(** What a keyword match removes ends in at most one space. *)
Lemma strip_ahead_trailing s n :
  strip_ahead keywords s = S n ->
  (trailing_spaces (take (S n) s) <= 1)%nat.
Proof.
  intros H. apply strip_ahead_some in H as (kw & Hin & Hm).
  unfold match_ahead in Hm.
  destruct (starts_with kw s) eqn:Hs; [|done].
  apply starts_with_prefix in Hs.
  assert (Hn : (S n <= length kw + 1)%nat).
  { destruct (drop (length kw) s) as [|d tl]; [lia|].
    destruct (iskey d); [done|]. destruct (Ascii.eqb d SPACE); lia. }
  rewrite Hs, take_app.
  assert (Hle : (length kw <= S n)%nat).
  { destruct (drop (length kw) s) as [|d tl]; [lia|].
    destruct (iskey d); [done|]. destruct (Ascii.eqb d SPACE); lia. }
  rewrite take_ge by lia.
  pose proof (trailing_spaces_after kw
                (take (S n - length kw) (drop (length kw) s))
                (keywords_no_space kw Hin)) as Ht.
  rewrite length_take in Ht. lia.
Qed.

(** The spaces that end the source are at most one more than the
    characters kept, and the kept characters they are counted against
    are separators. *)
Lemma kept_trailing fuel s :
  (length s < fuel)%nat ->
  (trailing_spaces s <= length (kept fuel s) + 1)%nat /\
  Forall (fun c => is_sep c = true)
    (drop (length (kept fuel s) - trailing_spaces s) (kept fuel s)).
Proof.
  revert s. induction fuel as [|fuel IH]; intros s Hfuel; [lia|].
  cbn [kept]. destruct (strip_ahead keywords s) as [|n] eqn:Hstrip.
  - set (k := take_while iskey s).
    set (s1 := drop_while iskey s).
    set (d := take_while is_sep s1).
    set (s2 := drop_while is_sep s1).
    pose proof (take_while_Forall iskey s) as Hk. fold k in Hk.
    pose proof (take_while_Forall is_sep s1) as Hd. fold d in Hd.
    pose proof (take_drop_while iskey s) as Hsplit1. fold k s1 in Hsplit1.
    pose proof (take_drop_while is_sep s1) as Hsplit2. fold d s2 in Hsplit2.
    assert (Hs : s = (k ++ d) ++ s2) by (by rewrite <- app_assoc, Hsplit2).
    assert (Hknsp : Forall (fun c => is_space c = false) k).
    { eapply Forall_impl; [exact Hk|]. intros c. apply alnum_not_space. }
    destruct s2 as [|c2 s2'] eqn:Hs2.
    + rewrite kept_nil, app_nil_r. rewrite app_nil_r in Hs.
      pose proof (trailing_spaces_after k d Hknsp) as Ht. rewrite <- Hs in Ht.
      rewrite length_app. split; [lia|].
      rewrite drop_app_ge by lia. by apply Forall_drop.
    + pose proof (drop_while_sep_stop s1) as Hc2. fold s2 in Hc2.
      rewrite Hs2 in Hc2.
      assert (Hd1 : (0 < length d)%nat).
      { destruct d as [|? ?] eqn:Hdeq; [|simpl; lia].
        simpl in Hsplit2. pose proof (drop_while_alnum_stop s) as Hst.
        fold s1 in Hst. rewrite <- Hsplit2 in Hst. congruence. }
      assert (Ht : trailing_spaces s = trailing_spaces (c2 :: s2')).
      { rewrite Hs, trailing_spaces_app. simpl forallb.
        by rewrite (alnum_not_space c2 Hc2). }
      assert (Hls : length s = (length k + length d + S (length s2'))%nat).
      { rewrite Hs, !length_app. simpl. lia. }
      destruct (IH (c2 :: s2') ltac:(simpl; lia)) as [HA HB].
      rewrite Ht, !length_app. split; [lia|].
      set (K2 := kept fuel (c2 :: s2')) in *.
      set (t := trailing_spaces (c2 :: s2')) in *.
      rewrite drop_app_ge by lia. rewrite drop_app.
      apply Forall_app. split; [by apply Forall_drop|].
      replace (length k + (length d + length K2) - t - length k - length d)%nat
        with (length K2 - t)%nat by lia.
      exact HB.
  - pose proof (strip_ahead_le keywords s) as Hle. rewrite Hstrip in Hle.
    pose proof (strip_ahead_trailing s n Hstrip) as Hx.
    pose proof (trailing_spaces_app (take (S n) s) (drop (S n) s)) as Ht.
    rewrite take_drop in Ht.
    destruct (forallb is_space (drop (S n) s)) eqn:Hy.
    + apply forallb_Forall in Hy.
      assert (Hsep : Forall (fun c => is_sep c = true) (drop (S n) s)).
      { eapply Forall_impl; [exact Hy|]. apply is_space_sep. }
      rewrite kept_seps by (try done; rewrite length_drop; lia).
      split; [lia|].
      replace (length (drop (S n) s) - trailing_spaces s)%nat with 0%nat by lia.
      by rewrite drop_0.
    + rewrite Ht. apply IH. rewrite length_drop. lia.
Qed.

(** ** The output of the scan *)

Lemma take_while_take_seps l n :
  Forall (fun c => is_sep c = true) (drop n l) ->
  take_while iskey (take n l) = take_while iskey l.
Proof.
  revert n. induction l as [|c l IH]; intros n H; [by rewrite take_nil|].
  destruct n as [|n].
  - rewrite drop_0 in H. inversion H as [|? ? Hc _]; subst.
    unfold is_sep in Hc. apply negb_true_iff in Hc. simpl. by rewrite Hc.
  - simpl. destruct (iskey c); [|done]. f_equal. by apply IH.
Qed.

(** Cutting a keyword-free text before separators keeps it keyword-free. *)
Lemma keyword_free_take b l n :
  keyword_free b l = true ->
  Forall (fun c => is_sep c = true) (drop n l) ->
  keyword_free b (take n l) = true.
Proof.
  revert b n. induction l as [|c l IH]; intros b n Hfree Hseps;
    [by rewrite take_nil|].
  destruct n as [|n]; [done|].
  cbn [take keyword_free] in *.
  apply andb_true_iff in Hfree as [Hhead Hrest].
  apply andb_true_iff. split; [|by apply IH].
  destruct b; [done|]. cbn [orb] in *.
  apply no_word_at_check. intros kw Hin.
  destruct (word_at kw (c :: take n l)) eqn:Hw; [|done].
  apply word_at_run in Hw; [|by apply keywords_alnum].
  change (c :: take n l) with (take (S n) (c :: l)) in Hw.
  rewrite take_while_take_seps in Hw by done.
  apply word_at_run in Hw; [|by apply keywords_alnum].
  rewrite forallb_forall in Hhead.
  specialize (Hhead kw ltac:(by apply list_elem_of_In)).
  rewrite Hw in Hhead. done.
Qed.

Lemma stripped_keyword_free s : keyword_free false (stripped s) = true.
Proof.
  unfold stripped. apply keyword_free_take; [apply kept_keyword_free|].
  apply kept_trailing. lia.
Qed.

(** A keyword-free text has no whole-word occurrence of a keyword. *)
Lemma keyword_free_no_whole_word l kw :
  keyword_free false l = true -> kw ∈ keywords -> ~ whole_word kw l.
Proof.
  intros Hfree Hin (pre & post & -> & Hpre & Hpost).
  assert (Hword : word_at kw (kw ++ post) = true).
  { unfold word_at. rewrite starts_with_app, drop_app_length.
    destruct Hpost as [->|(d & post' & -> & Hd)]; [done|].
    simpl. by rewrite Hd. }
  assert (Hgen : forall b,
            match last pre with None => b = false | Some p => iskey p = false end ->
            keyword_free b (pre ++ kw ++ post) = true -> False).
  { clear Hfree Hpre. induction pre as [|p pre IH]; intros b Hb Hfree.
    - simpl in Hb. subst b. simpl app in Hfree.
      destruct (kw ++ post) as [|c tl] eqn:Hl.
      + apply keywords_nonempty in Hin. by destruct kw.
      + cbn [keyword_free orb] in Hfree.
        apply andb_true_iff in Hfree as [Hhead _].
        rewrite forallb_forall in Hhead.
        specialize (Hhead kw ltac:(by apply list_elem_of_In)).
        rewrite Hword in Hhead. done.
    - cbn [app keyword_free] in Hfree.
      apply andb_true_iff in Hfree as [_ Hrest].
      apply (IH (iskey p)); [|done].
      destruct pre as [|p' pre']; [by simpl in *|].
      rewrite last_cons_cons in Hb.
      destruct (last (p' :: pre')) eqn:Hl; [done|].
      by apply last_None in Hl. }
  apply (Hgen false); [|done].
  destruct Hpre as [->|(pre' & p & -> & Hp)]; [done|].
  by rewrite last_snoc.
Qed.

(** ** What [raw] builds *)

Lemma sv_find_from_nonneg needle hay i :
  0 <= i -> 0 <= sv_find_from hay needle i.
Proof.
  revert i. induction hay as [|c hay IH]; intros i Hi; simpl.
  - destruct (starts_with needle []); [done|]. rewrite npos_eq.
    pose proof SIZE_MOD_large. lia.
  - destruct (starts_with needle (c :: hay)); [done|]. apply IH. lia.
Qed.

(** A [raw()] that builds is a well-formed string that fills its array
    up to the terminator. *)
Lemma raw_wf cc T s :
  raw cc T = Ok s -> wf s /\ size_ s = capacity_ s - 1.
Proof.
  unfold raw. intros H.
  apply bind_Ok in H as (full & _ & H).
  apply bind_Ok in H as (L & Hdiv & H).
  apply raw_guards in H as (_ & _ & H).
  unfold sz_div in Hdiv.
  destruct (Z.eqb_spec (num_appearance cc) 0) as [|Hna]; [done|].
  injection Hdiv as HL.
  set (a := wrap (wrap (capacity_ full - 1) - num_misc_chars cc)) in *.
  pose proof (wrap_range (wrap (capacity_ full - 1) - num_misc_chars cc)) as Ha.
  fold a in Ha.
  pose proof (wrap_range (sv_size (full_void cc) - sv_size (full_int cc)))
    as Hn. fold (num_appearance cc) in Hn.
  assert (HLr : 0 <= L <= a).
  { subst L. split; [apply Z.div_pos; lia|].
    apply Z.div_le_upper_bound; [lia|]. nia. }
  pose proof (wrap_range (L + 1)) as HN.
  rewrite fixed_string_of_ptr_spec in H;
    [|lia|lia|apply sv_find_from_nonneg; lia].
  cbv zeta in H.
  destruct (Z.eqb_spec (wrap (L + 1)) 0) as [|HN0]; [done|]. simpl orb in H.
  assert (HL1 : wrap (L + 1) = L + 1).
  { apply wrap_small. split; [lia|].
    destruct (Z.eq_dec (L + 1) SIZE_MOD) as [He|]; [|lia].
    rewrite He in HN0. by compute in HN0. }
  rewrite HL1 in H.
  replace (Z.to_nat (Z.min L (L + 1 - 1))) with (Z.to_nat L) in H by lia.
  destruct (Nat.ltb_spec
              (length (drop (Z.to_nat (name_start_pos cc)) (data_ full)))
              (Z.to_nat L)) as [|Hsrc]; [done|].
  injection H as <-. split.
  - apply wf_filled; lia.
  - simpl. lia.
Qed.

Lemma text_view s : size_ s = capacity_ s - 1 -> text s = view s.
Proof. intros H. unfold text, view. by rewrite H. Qed.

(** The two passes under MSVC, on a well-formed [raw()] value: [dry]
    counts the characters of [stripped], and [tidy] holds them, unless
    the count has wrapped to [npos]. *)
Lemma msvc_passes nm :
  wf nm -> size_ nm = capacity_ nm - 1 ->
  exists L,
    dry_msvc nm = Ok L /\
    (L <> npos ->
     L = Z.of_nat (length (stripped (view nm))) /\
     tidy_msvc nm = Ok (holding (L + 1) (stripped (view nm)))) /\
    (L = npos -> exists e, tidy_msvc nm = Err e).
Proof.
  intros (Hdata & Hcap & Hsize) Hfull.
  pose proof (dry_msvc_spec nm Hdata ltac:(lia)) as Hdry.
  eexists. split; [exact Hdry|].
  rewrite (text_view nm Hfull) in *.
  set (s := view nm) in *.
  set (K := kept (S (length s)) s) in *.
  set (t := trailing_spaces s) in *.
  pose proof (kept_trailing (S (length s)) s ltac:(lia)) as [HA _].
  fold K t in HA.
  pose proof (length_kept (S (length s)) s) as HK. fold K in HK.
  assert (Hs : Z.of_nat (length s) < SIZE_MOD - 1).
  { unfold s. rewrite length_view by done. lia. }
  split.
  - intros Hnp.
    assert (Ht : (t <= length K)%nat).
    { destruct (decide (t <= length K)%nat); [done|].
      exfalso. apply Hnp.
      replace (Z.of_nat (length K) - Z.of_nat t) with (-1) by lia. done. }
    assert (HL : wrap (Z.of_nat (length K) - Z.of_nat t)
                 = Z.of_nat (length K - t)).
    { rewrite wrap_small by lia. lia. }
    rewrite HL in *.
    assert (Hlen : length (stripped s) = (length K - t)%nat).
    { unfold stripped. fold K t. rewrite length_take. lia. }
    split; [by rewrite Hlen|].
    rewrite (tidy_msvc_spec nm _ Hdata ltac:(lia) Hdry) by lia.
    rewrite (text_view nm Hfull), Nat2Z.id. done.
  - intros Hnp. rewrite Hnp in Hdry. by apply tidy_msvc_npos.
Qed.

(** ** [tidy] and [dry] *)

(** What [tidy()] yields under MSVC, in terms of [raw()]. *)
Lemma tidy_msvc_inv cc T dst :
  family cc = MSVC -> tidy cc T = Ok dst ->
  exists nm,
    raw cc T = Ok nm /\
    dry cc T = Ok (Z.of_nat (length (stripped (view nm)))) /\
    Z.of_nat (length (stripped (view nm))) < SIZE_MOD - 1 /\
    dst = holding (Z.of_nat (length (stripped (view nm))) + 1)
            (stripped (view nm)).
Proof.
  intros Hfam Htidy. unfold tidy, dry in *. rewrite Hfam in *.
  apply bind_Ok in Htidy as (nm & Hraw & Htidy).
  exists nm. rewrite Hraw. cbn [bind]. split; [done|].
  destruct (raw_wf cc T nm Hraw) as [Hwf Hfull].
  destruct (msvc_passes nm Hwf Hfull) as (L & Hdry & Hok & Hnpos).
  destruct (Z.eq_dec L npos) as [He|Hne].
  - destruct (Hnpos He) as [e Herr]. congruence.
  - destruct (Hok Hne) as [HL Ht]. rewrite Ht in Htidy.
    injection Htidy as <-. rewrite Hdry, <- HL.
    assert (0 <= L < SIZE_MOD).
    { rewrite dry_msvc_spec in Hdry by (destruct Hwf as (? & ? & ?); lia).
      injection Hdry as <-. apply wrap_range. }
    rewrite npos_eq in Hne. repeat split; try done. lia.
Qed.

(** Whatever [tidy()] yields is well formed and fills its array. *)
Lemma tidy_wf cc T nm :
  tidy cc T = Ok nm -> wf nm /\ size_ nm = capacity_ nm - 1.
Proof.
  intros Htidy. destruct (family cc) eqn:Hfam.
  - unfold tidy in Htidy. rewrite Hfam in Htidy.
    apply bind_Ok in Htidy as (s & Hraw & [= <-]). by apply (raw_wf cc T).
  - unfold tidy in Htidy. rewrite Hfam in Htidy.
    apply bind_Ok in Htidy as (s & Hraw & [= <-]). by apply (raw_wf cc T).
  - destruct (tidy_msvc_inv cc T nm Hfam Htidy) as (s & _ & _ & Hlt & ->).
    split; [apply wf_holding; lia|]. simpl. lia.
  - unfold tidy in Htidy. rewrite Hfam in Htidy.
    by apply bind_Ok in Htidy as (s & _ & ?).
Qed.

(** C10. Under MSVC, the family that strips keywords, the length [dry()]
    returns is the logical length of the string [tidy()] produces: when
    [tidy()] yields a string, [dry()] yields its [size_], which is also
    the length of its view and the length of the stripped raw name; and
    whenever [raw()] builds, [dry()] returns a length, and [tidy()] yields
    a string of that length unless the length has wrapped to [npos]. *)
Theorem dry_is_length_of_tidy (cc : compiler) (T : cxx_type) :
  family cc = MSVC ->
  (forall dst, tidy cc T = Ok dst ->
     dry cc T = Ok (size_ dst) /\
     Z.of_nat (length (view dst)) = size_ dst) /\
  (forall nm, raw cc T = Ok nm ->
     exists L, dry cc T = Ok L /\
       (L <> npos ->
        exists dst, tidy cc T = Ok dst /\ size_ dst = L /\
                    view dst = stripped (view nm))).
Proof.
  intros Hfam. split.
  - intros dst Htidy.
    destruct (tidy_msvc_inv cc T dst Hfam Htidy) as (nm & _ & Hdry & Hlt & ->).
    split; [exact Hdry|]. rewrite view_holding by lia. done.
  - intros nm Hraw.
    destruct (raw_wf cc T nm Hraw) as [Hwf Hfull].
    destruct (msvc_passes nm Hwf Hfull) as (L & Hdry & Hok & _).
    exists L. unfold dry, tidy. rewrite Hraw, Hfam. cbn [bind].
    split; [exact Hdry|]. intros Hne. destruct (Hok Hne) as [HL Ht].
    eexists. split; [exact Ht|]. split; [simpl; lia|].
    apply view_holding. lia.
Qed.

Lemma dry_is_length_of_tidy_witness :
  dry sample_msvc (value_type (msvc_signature "struct t::S"))
    = Ok (size_ (holding 5 (chars "t::S"))) /\
  Z.of_nat (length (view (holding 5 (chars "t::S"))))
    = size_ (holding 5 (chars "t::S")).
Proof.
  apply (proj1 (dry_is_length_of_tidy sample_msvc
                  (value_type (msvc_signature "struct t::S")) eq_refl)
           (holding 5 (chars "t::S"))).
  vm_compute. reflexivity.
Defined.

(** ** [name] and the decoration keywords *)

(** C2, as it stands, fails where [tidy()] does not scan: under GCC the
    printed name of an unnamed struct comes out of [name()] with its
    keyword, as a whole word. *)
Lemma name_keeps_keyword_under_gcc :
  exists s,
    name sample_gcc (value_type (gcc_signature "t::<unnamed struct>")) = Ok s /\
    chars "struct" ∈ keywords /\
    whole_word (chars "struct") (view s).
Proof.
  eexists. split; [vm_compute; reflexivity|].
  split; [unfold keywords; rewrite !elem_of_cons; auto|].
  exists (chars "t::<unnamed "), (chars ">").
  split; [vm_compute; reflexivity|]. split.
  - right. exists (chars "t::<unnamed"), SPACE. by split.
  - right. exists ">"%char, []. by split.
Qed.

(** C2, amended. Under MSVC [name()] holds no whole-word occurrence of
    [enum], [class], [struct] or [__cdecl], whatever the raw name holds:
    it is the raw name with the scan applied, and it builds whenever
    [raw()] builds and [dry()] has not wrapped to [npos].  Under GCC and
    Clang [name()] is [raw()], keywords included. *)
Theorem name_strips_keywords_under_msvc (cc : compiler) (T : cxx_type) :
  (family cc = MSVC ->
   (forall s, name cc T = Ok s ->
      (forall kw, kw ∈ keywords -> ~ whole_word kw (view s)) /\
      (exists nm, raw cc T = Ok nm /\ view s = stripped (view nm))) /\
   (forall nm, raw cc T = Ok nm -> dry cc T <> Ok npos ->
      exists s, name cc T = Ok s)) /\
  (family cc = GCC \/ family cc = Clang -> name cc T = raw cc T).
Proof.
  split.
  - intros Hfam. split.
    + intros s Hname. unfold name in Hname.
      destruct (tidy_msvc_inv cc T s Hfam Hname) as (nm & Hraw & _ & Hlt & ->).
      rewrite view_holding by lia. split.
      * intros kw Hin. apply keyword_free_no_whole_word; [|done].
        apply stripped_keyword_free.
      * by exists nm.
    + intros nm Hraw Hdry.
      destruct (raw_wf cc T nm Hraw) as [Hwf Hfull].
      destruct (msvc_passes nm Hwf Hfull) as (L & HL & Hok & _).
      unfold name, tidy, dry in *. rewrite Hraw, Hfam in *. cbn [bind] in *.
      assert (Hne : L <> npos) by congruence.
      destruct (Hok Hne) as [_ Ht]. eexists. exact Ht.
  - intros Hfam. unfold name, tidy.
    destruct (raw cc T) as [nm|e]; cbn [bind]; [|done].
    by destruct Hfam as [-> | ->].
Qed.

Lemma name_strips_keywords_under_msvc_witness :
  ((forall kw, kw ∈ keywords ->
      ~ whole_word kw (view (holding 17 (chars "t::E (t::C,t::S)")))) /\
   (exists nm,
      raw sample_msvc
        (value_type
           (msvc_signature "enum t::E __cdecl(class t::C,struct t::S)"))
        = Ok nm /\
      view (holding 17 (chars "t::E (t::C,t::S)")) = stripped (view nm))) /\
  name sample_gcc (value_type (gcc_signature "t::S"))
    = raw sample_gcc (value_type (gcc_signature "t::S")).
Proof.
  split.
  - apply (proj1 (proj1 (name_strips_keywords_under_msvc sample_msvc
                    (value_type
                       (msvc_signature
                          "enum t::E __cdecl(class t::C,struct t::S)")))
             eq_refl) (holding 17 (chars "t::E (t::C,t::S)"))).
    vm_compute. reflexivity.
  - apply (name_strips_keywords_under_msvc sample_gcc
             (value_type (gcc_signature "t::S"))).
    left. reflexivity.
Defined.

(** ** [base] on plain value types *)

(** C8. For a type that is neither cv-qualified nor an array, pointer,
    reference, function or member pointer, [base()] holds no [':']: it
    is the tidy name when that holds no [':'], and otherwise what
    follows the last [':'] of the tidy name. *)
Theorem base_has_no_scope_separator (cc : compiler) (T : cxx_type)
    (nm : fixed_string_t) :
  qualified_or_compound T = false ->
  name cc T = Ok nm ->
  exists b,
    base cc T = Ok b /\
    (COLON ∉ view b) /\
    (((COLON ∉ view nm) /\ b = nm) \/
     (exists pre, view nm = pre ++ COLON :: view b)).
Proof.
  intros Hq Hname. unfold name in Hname.
  destruct (tidy_wf cc T nm Hname) as [Hwf Hfull].
  unfold base. rewrite Hq, Hname. cbn [bind].
  destruct (rfind_spec nm COLON Hwf) as (r & Hr & Hin & Hnot & _).
  rewrite Hr. cbn [bind].
  destruct Hwf as (Hdata & Hcap & Hsize).
  destruct (decide (COLON ∈ view nm)) as [Hyes|Hno].
  - destruct (Hin Hyes) as (Hrange & Hat & Hafter).
    destruct (Z.eqb_spec r npos) as [He|_]; [rewrite npos_eq in He; lia|].
    rewrite (wrap_small (capacity_ nm - r)) by lia.
    rewrite (wrap_small (capacity_ nm - r - 1)) by lia.
    rewrite fixed_string_of_ptr_spec by lia. cbv zeta.
    destruct (Z.eqb_spec (capacity_ nm - r - 1) 0); [lia|]. simpl orb.
    set (src := drop (Z.to_nat (r + 1)) (data_ nm)).
    set (m := Z.to_nat (Z.min (capacity_ nm - r - 1) (capacity_ nm - r - 1 - 1))).
    assert (Hsrc : length src = Z.to_nat (capacity_ nm - r - 1))
      by (unfold src; rewrite length_drop; lia).
    destruct (Nat.ltb_spec (length src) m); [lia|].
    eexists. split; [reflexivity|].
    rewrite view_filled by lia.
    assert (Hview : take m src = drop (S (Z.to_nat r)) (view nm)).
    { unfold src, view. rewrite take_drop_commute. f_equal; [lia|].
      f_equal. lia. }
    rewrite Hview. split.
    + intros Hc. apply list_elem_of_lookup in Hc as [j Hj].
      rewrite lookup_drop in Hj. apply (Hafter (S (Z.to_nat r) + j)%nat); [lia|done].
    + right. exists (take (Z.to_nat r) (view nm)).
      symmetry. by apply take_drop_middle.
  - rewrite (Hnot Hno), Z.eqb_refl.
    exists nm. split; [done|]. split; [done|]. by left.
Qed.

Lemma base_has_no_scope_separator_witness :
  exists b,
    base sample_msvc (value_type (msvc_signature "struct t::S")) = Ok b /\
    (COLON ∉ view b) /\
    (((COLON ∉ view (holding 5 (chars "t::S"))) /\
      b = holding 5 (chars "t::S")) \/
     (exists pre, view (holding 5 (chars "t::S")) = pre ++ COLON :: view b)).
Proof.
  apply (base_has_no_scope_separator sample_msvc
           (value_type (msvc_signature "struct t::S"))
           (holding 5 (chars "t::S"))).
  - reflexivity.
  - vm_compute. reflexivity.
Defined.

(** ** Stripping twice *)

Lemma keyword_free_strip l :
  keyword_free false l = true -> strip_ahead keywords l = 0%nat.
Proof.
  intros H. apply strip_ahead_zero; [apply keywords_nonempty|].
  intros kw Hin. destruct l as [|c l].
  - unfold word_at. destruct kw; [by apply keywords_nonempty in Hin|done].
  - cbn [keyword_free orb] in H. apply andb_true_iff in H as [H _].
    rewrite forallb_forall in H.
    specialize (H kw ltac:(by apply list_elem_of_In)).
    by apply negb_true_iff in H.
Qed.

(** The scan keeps a keyword-free text whole. *)
Lemma kept_keyword_free_id fuel l :
  keyword_free false l = true -> (length l < fuel)%nat -> kept fuel l = l.
Proof.
  revert l. induction fuel as [|fuel IH]; intros l Hfree Hfuel; [lia|].
  cbn [kept]. rewrite keyword_free_strip by done.
  pose proof (take_drop_while iskey l) as H1.
  pose proof (take_drop_while is_sep (drop_while iskey l)) as H2.
  pose proof (take_while_Forall iskey l) as Hk.
  pose proof (take_while_Forall is_sep (drop_while iskey l)) as Hd.
  set (k := take_while iskey l) in *.
  set (s1 := drop_while iskey l) in *.
  set (d := take_while is_sep s1) in *.
  set (s2 := drop_while is_sep s1) in *.
  assert (Hl : l = k ++ d ++ s2) by (by rewrite H2, H1).
  destruct s2 as [|c2 s2'] eqn:Hs2; [by rewrite kept_nil, Hl|].
  assert (Hd1 : d <> []).
  { intros Hnil. rewrite Hnil in H2. simpl in H2.
    pose proof (drop_while_alnum_stop l) as Hst. fold s1 in Hst.
    pose proof (drop_while_sep_stop s1) as Hst2. fold s2 in Hst2.
    rewrite Hs2 in Hst2. rewrite <- H2 in Hst. congruence. }
  rewrite IH; [by rewrite Hl| |].
  - rewrite Hl in Hfree. destruct k as [|c k'].
    + change ([] ++ d ++ c2 :: s2') with (d ++ c2 :: s2') in Hfree.
      by rewrite keyword_free_seps in Hfree.
    + apply Forall_cons in Hk as [Hc Hk'].
      cbn [app keyword_free] in Hfree. rewrite Hc in Hfree.
      apply andb_true_iff in Hfree as [_ Hfree].
      by rewrite keyword_free_alnum, keyword_free_seps in Hfree.
  - assert (length l = (length k + length d + S (length s2'))%nat)
      by (rewrite Hl, !length_app; simpl; lia).
    assert (0 < length d)%nat by (destruct d; [done|simpl; lia]).
    simpl. lia.
Qed.

(** A second pass changes nothing unless the first left a space at the
    end of its output. *)
Lemma tidy_msvc_again cc T d1 :
  family cc = MSVC -> tidy cc T = Ok d1 ->
  trailing_spaces (view d1) = 0%nat ->
  tidy_msvc d1 = Ok d1.
Proof.
  intros Hfam Htidy Hts.
  destruct (tidy_msvc_inv cc T d1 Hfam Htidy) as (nm & _ & _ & Hlt & ->).
  set (out := stripped (view nm)) in *.
  rewrite view_holding in Hts by lia.
  assert (Hfree : keyword_free false out = true)
    by apply stripped_keyword_free.
  set (cap := Z.of_nat (length out) + 1) in *.
  assert (Hwf : wf (holding cap out)) by (apply wf_holding; lia).
  assert (Hfull : size_ (holding cap out) = capacity_ (holding cap out) - 1)
    by (cbn [size_ capacity_ holding]; lia).
  destruct (msvc_passes _ Hwf Hfull) as (L & Hdry & Hok & _).
  rewrite view_holding in Hok by lia.
  assert (Hkept : kept (S (length out)) out = out)
    by (apply kept_keyword_free_id; [done|lia]).
  assert (Hagain : stripped out = out).
  { unfold stripped. rewrite Hkept, Hts, Nat.sub_0_r. apply take_ge. lia. }
  rewrite Hagain in Hok.
  assert (Hne : L <> npos).
  { destruct Hwf as (Hdata & Hcap & Hsize).
    rewrite dry_msvc_spec in Hdry
      by (try done; cbn [capacity_ holding] in *; lia).
    rewrite (text_view _ Hfull), view_holding, Hkept, Hts in Hdry by lia.
    rewrite wrap_small in Hdry by lia.
    assert (HL : forall a b : Z, Ok a = Ok b -> a = b) by (by intros a b [=]).
    apply HL in Hdry. rewrite npos_eq. lia. }
  destruct (Hok Hne) as [-> Ht]. exact Ht.
Qed.

(** *** Names that do not end in a keyword *)
















(** The condition on the last word is what the scan needs.  From a text
    that ends in a keyword, such as ["A struct"], the space before the
    keyword is kept and, the text ending in a letter, is not taken off
    again: the first pass yields ["A "] and a second pass ["A"]. *)
Lemma scan_after_trailing_keyword :
  exists r d1 d2,
    raw sample_msvc (value_type (msvc_signature "A struct")) = Ok r /\
    view r = chars "A struct" /\
    last_word (view r) = chars "struct" /\
    tidy sample_msvc (value_type (msvc_signature "A struct")) = Ok d1 /\
    view d1 = chars "A " /\
    tidy_msvc d1 = Ok d2 /\
    view d2 = chars "A" /\
    view d2 <> view d1.
Proof.
  eexists. eexists. eexists.
  split; [vm_compute; reflexivity|].
  split; [vm_compute; reflexivity|].
  split; [vm_compute; reflexivity|].
  split; [vm_compute; reflexivity|].
  split; [vm_compute; reflexivity|].
  split; [vm_compute; reflexivity|].
  split; [vm_compute; reflexivity|].
  vm_compute. discriminate.
Qed.

(** * Further properties of the header *)

(** ** Forward search *)

(** The loop of [find], started at [pos], stops on the first index from
    [pos] on that holds [c]. *)
Lemma find_loop_spec s c fuel pos :
  wf s -> 0 <= pos <= size_ s ->
  (Z.to_nat (size_ s - pos) < fuel)%nat ->
  exists r, find_loop fuel s c pos = Ok r /\
    ((r = npos /\
      forall j, (Z.to_nat pos <= j < Z.to_nat (size_ s))%nat ->
                data_ s !! j <> Some c) \/
     (pos <= r < size_ s /\ data_ s !! Z.to_nat r = Some c /\
      forall j, (Z.to_nat pos <= j < Z.to_nat r)%nat ->
                data_ s !! j <> Some c)).
Proof.
  intros (Hdata & Hcap & Hsize). revert pos.
  induction fuel as [|fuel IH]; intros pos Hpos Hfuel; [lia|].
  cbn [find_loop]. destruct (Z.ltb_spec pos (size_ s)) as [Hlt|Hge].
  - destruct (lookup_lt_is_Some_2 (data_ s) (Z.to_nat pos) ltac:(lia))
      as [d Hd].
    rewrite (get_lookup _ _ _ Hd). cbn [bind].
    destruct (Ascii.eqb d c) eqn:Hdc.
    + apply Ascii.eqb_eq in Hdc as ->. exists pos. split; [done|].
      right. split; [lia|]. split; [done|]. intros j Hj. lia.
    + apply eqb_false_neq in Hdc. rewrite wrap_small by lia.
      destruct (IH (pos + 1) ltac:(lia) ltac:(lia)) as (r & Hr & Hcase).
      exists r. split; [done|].
      destruct Hcase as [[-> Hnone]|(Hrange & Hat & Hbefore)].
      * left. split; [done|]. intros j Hj.
        destruct (decide (j = Z.to_nat pos)) as [->|Hne].
        -- rewrite Hd. congruence.
        -- apply Hnone. lia.
      * right. split; [lia|]. split; [done|]. intros j Hj.
        destruct (decide (j = Z.to_nat pos)) as [->|Hne].
        -- rewrite Hd. congruence.
        -- apply Hbefore. lia.
  - exists npos. split; [done|]. left. split; [done|]. intros j Hj. lia.
Qed.

(** [find] as a whole: the first occurrence, or [npos]. *)
Lemma find_spec (s : fixed_string_t) (c : ascii) :
  wf s ->
  exists r, find s c = Ok r /\
    (c ∈ view s ->
       0 <= r < size_ s /\ view s !! Z.to_nat r = Some c /\
       forall j, (j < Z.to_nat r)%nat -> view s !! j <> Some c) /\
    (c ∉ view s -> r = npos).
Proof.
  intros Hwf. pose proof Hwf as (Hdata & Hcap & Hsize). unfold find.
  destruct (Z.eqb_spec (size_ s) 0) as [H0|H0].
  - exists npos. split; [done|].
    assert (Hv : view s = []) by (unfold view; rewrite H0; reflexivity).
    rewrite Hv. split; [|done]. intros Hin. by apply elem_of_nil in Hin.
  - destruct (find_loop_spec s c (S (Z.to_nat (size_ s))) 0 Hwf
                ltac:(lia) ltac:(lia)) as (r & Hr & Hcase).
    exists r. split; [done|].
    destruct Hcase as [[-> Hnone]|(Hrange & Hat & Hbefore)].
    + assert (Hnot : c ∉ view s).
      { intros Hin. apply list_elem_of_lookup in Hin as [j Hj].
        pose proof (lookup_lt_Some _ _ _ Hj) as Hlt.
        unfold view in Hlt. rewrite length_take in Hlt.
        rewrite view_lookup in Hj by lia. apply (Hnone j); [lia|done]. }
      split; [by intros ?|done].
    + assert (Hin : c ∈ view s).
      { apply list_elem_of_lookup. exists (Z.to_nat r).
        rewrite view_lookup by lia. done. }
      split; [|by intros ?].
      intros _. split; [lia|]. split; [rewrite view_lookup by lia; done|].
      intros j Hj. rewrite view_lookup by lia. apply Hbefore. lia.
Qed.

(** X1. [find(c)] on a string returns the smallest index below the
    logical length that holds [c], and [npos] when the string is empty or
    holds no [c]; characters of the array past the logical length are
    never looked at. *)
Theorem find_first_occurrence (s : fixed_string_t) (c : ascii) :
  wf s ->
  exists r, find s c = Ok r /\
    (c ∈ view s ->
       0 <= r < size_ s /\ view s !! Z.to_nat r = Some c /\
       forall j, (j < Z.to_nat r)%nat -> view s !! j <> Some c) /\
    (c ∉ view s -> r = npos).
Proof. apply find_spec. Qed.

Lemma find_first_occurrence_witness :
  exists r, find (holding 5 (chars "t::S")) COLON = Ok r /\
    (COLON ∈ view (holding 5 (chars "t::S")) ->
       0 <= r < size_ (holding 5 (chars "t::S")) /\
       view (holding 5 (chars "t::S")) !! Z.to_nat r = Some COLON /\
       forall j, (j < Z.to_nat r)%nat ->
                 view (holding 5 (chars "t::S")) !! j <> Some COLON) /\
    (COLON ∉ view (holding 5 (chars "t::S")) -> r = npos).
Proof.
  apply (find_first_occurrence (holding 5 (chars "t::S")) COLON).
  unfold wf. vm_compute. intuition discriminate.
Defined.

(** X2. [find] and [rfind] agree on whether the character occurs: one
    returns [npos] exactly when the other does; when it occurs, [find]
    returns an index no larger than [rfind]'s, both below the logical
    length, and the two are equal exactly when it occurs once. *)
Theorem find_rfind_agree (s : fixed_string_t) (c : ascii) :
  wf s ->
  exists f r,
    find s c = Ok f /\ rfind s c = Ok r /\
    (f = npos <-> r = npos) /\
    (c ∈ view s ->
       0 <= f <= r /\ r < size_ s /\
       (f = r <->
        forall i j, view s !! i = Some c -> view s !! j = Some c -> i = j)).
Proof.
  intros Hwf. pose proof Hwf as (Hdata & Hcap & Hsize).
  destruct (find_spec s c Hwf) as (f & Hf & Hfin & Hfnot).
  destruct (rfind_spec s c Hwf) as (r & Hr & Hrin & Hrnot & _).
  exists f, r. split; [done|]. split; [done|].
  assert (Hnp : size_ s < npos) by (rewrite npos_eq; lia).
  destruct (decide (c ∈ view s)) as [Hin|Hnot].
  - destruct (Hfin Hin) as (Hfr & Hfat & Hfbefore).
    destruct (Hrin Hin) as (Hrr & Hrat & Hrafter).
    assert (Hle : f <= r).
    { destruct (Z.le_gt_cases f r) as [|Hgt]; [done|].
      exfalso. apply (Hrafter (Z.to_nat f)); [lia|done]. }
    split; [split; lia|]. intros _. split; [lia|]. split; [lia|]. split.
    + intros -> i j Hi Hj.
      assert (Hone : forall k, view s !! k = Some c -> k = Z.to_nat r).
      { intros k Hk.
        destruct (Nat.lt_trichotomy k (Z.to_nat r)) as [Hlt|[->|Hgt]];
          [|done|].
        - exfalso. by apply (Hfbefore k).
        - exfalso. by apply (Hrafter k). }
      rewrite (Hone i Hi), (Hone j Hj). done.
    + intros Honce. specialize (Honce _ _ Hfat Hrat). lia.
  - rewrite (Hfnot Hnot), (Hrnot Hnot). split; [done|]. by intros ?.
Qed.

Lemma find_rfind_agree_witness :
  exists f r,
    find (holding 5 (chars "t::S")) COLON = Ok f /\
    rfind (holding 5 (chars "t::S")) COLON = Ok r /\
    (f = npos <-> r = npos) /\
    (COLON ∈ view (holding 5 (chars "t::S")) ->
       0 <= f <= r /\ r < size_ (holding 5 (chars "t::S")) /\
       (f = r <->
        forall i j, view (holding 5 (chars "t::S")) !! i = Some COLON ->
                    view (holding 5 (chars "t::S")) !! j = Some COLON ->
                    i = j)).
Proof.
  apply (find_rfind_agree (holding 5 (chars "t::S")) COLON).
  unfold wf. vm_compute. intuition discriminate.
Defined.

(** ** The converting constructors *)

Lemma filled_terminated N src k :
  (k <= length src)%nat -> Z.of_nat k < N ->
  data_ (filled N src k) !! k = Some NUL.
Proof.
  intros Hk HkN. unfold filled. cbn [data_].
  rewrite lookup_app_r by (rewrite length_take; lia).
  rewrite length_take. apply lookup_replicate_2. lia.
Qed.

(** X3. [fixed_string_t<N>{str, len}] copies the first [min(len, N - 1)]
    characters behind [str], so a source longer than the capacity is
    truncated; the object it builds has that logical length, below its
    capacity, and a NUL at the logical length.  It does not build when
    [N] is zero, or when there are characters to copy and the source
    array ends before the last of them. *)
Theorem fixed_string_of_ptr_truncates (N : Z) (buf : list ascii) (off len : Z) :
  0 <= N < SIZE_MOD -> 0 <= len < SIZE_MOD -> 0 <= off ->
  (1 <= N ->
   off + Z.min len (N - 1) <= Z.of_nat (length buf) ->
   exists s,
     fixed_string_of_ptr N (buf, off) len = Ok s /\
     capacity_ s = N /\
     size_ s = Z.min len (N - 1) /\
     view s = take (Z.to_nat (Z.min len (N - 1))) (drop (Z.to_nat off) buf) /\
     data_ s !! Z.to_nat (size_ s) = Some NUL /\
     wf s) /\
  (N = 0 \/
   (0 < Z.min len (N - 1) /\
    Z.of_nat (length buf) < off + Z.min len (N - 1)) ->
   fixed_string_of_ptr N (buf, off) len = Err OutOfBounds).
Proof.
  intros HN Hlen Hoff. rewrite fixed_string_of_ptr_spec by done. cbv zeta.
  set (src := drop (Z.to_nat off) buf).
  set (m := Z.to_nat (Z.min len (N - 1))).
  assert (Hsrc : length src = (length buf - Z.to_nat off)%nat)
    by (unfold src; by rewrite length_drop).
  split.
  - intros HN1 Hfit.
    destruct (Z.eqb_spec N 0); [lia|]. cbn [orb].
    destruct (Nat.ltb_spec (length src) m); [lia|].
    eexists. split; [reflexivity|].
    split; [done|]. split; [simpl; lia|].
    split; [by apply view_filled|].
    split; [|apply wf_filled; lia].
    cbn [size_ filled]. rewrite Nat2Z.id. apply filled_terminated; lia.
  - intros [->|[Hsome Hshort]]; [done|].
    destruct (Z.eqb_spec N 0); [done|]. cbn [orb].
    destruct (Nat.ltb_spec (length src) m); [done|]. unfold m in *. lia.
Qed.

Lemma fixed_string_of_ptr_truncates_witness :
  (exists s,
     fixed_string_of_ptr 4 (chars "struct t::S", 7) 11 = Ok s /\
     capacity_ s = 4 /\
     size_ s = Z.min 11 (4 - 1) /\
     view s = take (Z.to_nat (Z.min 11 (4 - 1)))
                (drop (Z.to_nat 7) (chars "struct t::S")) /\
     data_ s !! Z.to_nat (size_ s) = Some NUL /\
     wf s) /\
  fixed_string_of_ptr 4 (chars "struct t::S", 9) 11 = Err OutOfBounds.
Proof.
  split.
  - apply (proj1 (fixed_string_of_ptr_truncates 4 (chars "struct t::S") 7 11
                    ltac:(vm_compute; intuition discriminate)
                    ltac:(vm_compute; intuition discriminate)
                    ltac:(vm_compute; discriminate)));
      vm_compute; discriminate.
  - apply (proj2 (fixed_string_of_ptr_truncates 4 (chars "struct t::S") 9 11
                    ltac:(vm_compute; intuition discriminate)
                    ltac:(vm_compute; intuition discriminate)
                    ltac:(vm_compute; discriminate))).
    right. vm_compute. split; reflexivity.
Defined.

(** X4. [to_fixed_string] loses nothing: the object built from a literal
    has the literal's characters as its view, one more element than
    characters, and the terminator right after them. *)
Theorem to_fixed_string_round_trip (lit : list ascii) :
  sv_size lit < SIZE_MOD - 1 ->
  exists s,
    to_fixed_string lit = Ok s /\
    view s = lit /\
    size_ s = sv_size lit /\
    capacity_ s = sv_size lit + 1 /\
    data_ s !! Z.to_nat (size_ s) = Some NUL /\
    wf s.
Proof.
  intros Hlit. rewrite to_fixed_string_spec by done.
  eexists. split; [reflexivity|]. unfold sv_size in *.
  split; [|split; [done|split; [done|split]]].
  - unfold view, literal. cbn [size_ data_]. rewrite Nat2Z.id.
    apply take_app_length.
  - unfold literal. cbn [size_ data_]. rewrite Nat2Z.id.
    rewrite lookup_app_r by lia. by rewrite Nat.sub_diag.
  - unfold wf, literal. cbn [size_ data_ capacity_].
    rewrite length_app. simpl length. lia.
Qed.

Lemma to_fixed_string_round_trip_witness :
  exists s,
    to_fixed_string (msvc_signature "struct t::S") = Ok s /\
    view s = msvc_signature "struct t::S" /\
    size_ s = sv_size (msvc_signature "struct t::S") /\
    capacity_ s = sv_size (msvc_signature "struct t::S") + 1 /\
    data_ s !! Z.to_nat (size_ s) = Some NUL /\
    wf s.
Proof.
  apply (to_fixed_string_round_trip (msvc_signature "struct t::S")).
  vm_compute. reflexivity.
Defined.

(** ** [match] in general *)

(** X5. [match] returns [0], the length of [sub], or that length plus
    one, and never more than the characters left before [len].  A
    non-zero result means that [sub] stands at [pos] and is followed by
    the end of the text or by a character that is not an identifier
    character; so when some character of [sub] is not at its place the
    result is [0]. *)
Theorem match_never_overruns (str : fixed_string_t) (pos len : Z)
    (sub : list ascii) :
  0 <= len <= Z.of_nat (length (data_ str)) ->
  len < SIZE_MOD ->
  0 <= pos <= len ->
  Z.of_nat (length sub) < SIZE_MOD ->
  exists n,
    match_ str pos len sub = Ok n /\
    (n = 0 \/ n = Z.of_nat (length sub) \/ n = Z.of_nat (length sub) + 1) /\
    pos + n <= len /\
    (n <> 0 ->
     (forall i c, sub !! i = Some c -> get str (pos + Z.of_nat i) = Ok c) /\
     (pos + Z.of_nat (length sub) = len \/
      exists d, get str (pos + Z.of_nat (length sub)) = Ok d /\
                iskey d = false)) /\
    ((exists i c, sub !! i = Some c /\ get str (pos + Z.of_nat i) <> Ok c) ->
     n = 0).
Proof.
  intros Hlen Hmax Hpos Hsub.
  rewrite (match_refines str pos len sub Hlen Hmax Hpos Hsub).
  eexists. split; [reflexivity|].
  pose proof (length_ahead str len Hlen pos Hpos) as Hal.
  pose proof (match_ahead_le sub (ahead str len pos)) as Hle.
  assert (Hstands :
            match_ahead sub (ahead str len pos) <> 0%nat ->
            (forall i c, sub !! i = Some c ->
                         get str (pos + Z.of_nat i) = Ok c) /\
            (pos + Z.of_nat (length sub) = len \/
             exists d, get str (pos + Z.of_nat (length sub)) = Ok d /\
                       iskey d = false)).
  { unfold match_ahead. destruct (starts_with sub (ahead str len pos)) eqn:Hs;
      [|done].
    apply starts_with_prefix in Hs. intros Hn. split.
    - intros i c Hi. apply (ahead_lookup str len pos i c); [lia|].
      rewrite Hs. rewrite lookup_app_l by (by apply lookup_lt_Some in Hi). done.
    - destruct (drop (length sub) (ahead str len pos)) as [|d tl] eqn:Hd.
      + left. rewrite Hs, length_app in Hal. simpl in Hal. lia.
      + right. exists d. split.
        * apply (ahead_lookup str len pos (length sub) d); [lia|].
          rewrite Hs, lookup_app_r by lia. by rewrite Nat.sub_diag.
        * destruct (iskey d); [done|done]. }
  split; [|split; [lia|split]].
  - unfold match_ahead. destruct (starts_with sub (ahead str len pos)); [|by left].
    destruct (drop (length sub) (ahead str len pos)) as [|d tl]; [right; by left|].
    destruct (iskey d); [by left|].
    destruct (Ascii.eqb d SPACE); [right; right; lia|right; by left].
  - intros Hn. apply Hstands. lia.
  - intros (i & c & Hi & Hget).
    destruct (decide (match_ahead sub (ahead str len pos) = 0%nat)) as [->|Hn];
      [done|].
    exfalso. apply Hget. by apply (proj1 (Hstands Hn)).
Qed.

Lemma match_never_overruns_witness :
  exists n,
    match_ (holding 11 (chars "struct Foo")) 7 10 (chars "struct") = Ok n /\
    (n = 0 \/ n = Z.of_nat (length (chars "struct")) \/
     n = Z.of_nat (length (chars "struct")) + 1) /\
    7 + n <= 10 /\
    (n <> 0 ->
     (forall i c, chars "struct" !! i = Some c ->
        get (holding 11 (chars "struct Foo")) (7 + Z.of_nat i) = Ok c) /\
     (7 + Z.of_nat (length (chars "struct")) = 10 \/
      exists d,
        get (holding 11 (chars "struct Foo"))
          (7 + Z.of_nat (length (chars "struct"))) = Ok d /\
        iskey d = false)) /\
    ((exists i c, chars "struct" !! i = Some c /\
        get (holding 11 (chars "struct Foo")) (7 + Z.of_nat i) <> Ok c) ->
     n = 0).
Proof.
  apply (match_never_overruns (holding 11 (chars "struct Foo")) 7 10
           (chars "struct")); vm_compute; intuition discriminate.
Defined.

(** ** What the calibration constants count *)

(** X6. When the [int] and [void] signatures are one boilerplate filled
    with the two names, [num_appearance] is the number of times the name
    appears and [num_misc_chars] the number of characters outside the
    appearances; with at least one appearance [name_start_pos] is no
    later than the first appearance, and exactly there when ["int"] does
    not start earlier. *)
Theorem calibration_counts (cc : compiler) (b0 : list ascii)
    (rest : list (list ascii)) :
  full_int cc = instantiate b0 rest (chars "int") ->
  full_void cc = instantiate b0 rest (chars "void") ->
  sv_size (full_void cc) < SIZE_MOD ->
  num_appearance cc = Z.of_nat (length rest) /\
  num_misc_chars cc
    = Z.of_nat (length b0) + Z.of_nat (boilerplate_length rest) /\
  (rest <> [] ->
   0 <= name_start_pos cc <= Z.of_nat (length b0) /\
   ((forall j, (j < length b0)%nat ->
       starts_with (chars "int") (drop j (full_int cc)) = false) ->
    name_start_pos cc = Z.of_nat (length b0))).
Proof.
  intros Hint Hvoid Hvsize.
  pose proof (sv_size_instantiate b0 rest (chars "int")) as Li.
  pose proof (sv_size_instantiate b0 rest (chars "void")) as Lv.
  rewrite <- Hint in Li. rewrite <- Hvoid in Lv.
  change (length (chars "int")) with 3%nat in Li.
  change (length (chars "void")) with 4%nat in Lv.
  set (B := Z.of_nat (length b0) + Z.of_nat (boilerplate_length rest)) in *.
  set (k := Z.of_nat (length rest)) in *.
  assert (HB : 0 <= B) by (unfold B; lia).
  assert (Hk : 0 <= k) by (unfold k; lia).
  assert (Hna : num_appearance cc = k).
  { unfold num_appearance. rewrite Li, Lv.
    replace (B + k * Z.of_nat 4 - (B + k * Z.of_nat 3)) with k by lia.
    apply wrap_small. lia. }
  split; [done|]. split.
  - unfold num_misc_chars. rewrite Hna, Lv.
    rewrite (wrap_small (4 * k)) by lia.
    replace (B + k * Z.of_nat 4 - 4 * k) with B by lia.
    apply wrap_small. lia.
  - intros Hne.
    assert (Hocc : starts_with (chars "int") (drop (length b0) (full_int cc))
                   = true).
    { rewrite Hint. unfold instantiate. rewrite drop_app_length.
      destruct rest as [|b rest1]; [done|].
      rewrite appearances_cons. apply starts_with_app. }
    unfold name_start_pos, sv_find. split.
    + pose proof (sv_find_from_bound _ _ (full_int cc) 0 Hocc). lia.
    + intros Hfirst.
      rewrite (sv_find_from_first _ (length b0)); [lia|done|done].
Qed.

Lemma calibration_counts_witness :
  num_appearance sample_clang = 2 /\
  num_misc_chars sample_clang = 43 + 15 /\
  0 <= name_start_pos sample_clang <= 43 /\
  name_start_pos sample_clang = 43.
Proof.
  destruct (calibration_counts sample_clang
              (chars "static auto nsfx::details::type_name::full<")
              [chars ">::get() [T = "; chars "]"]
              eq_refl eq_refl eq_refl) as (Hna & Hmisc & Hstart).
  split; [exact Hna|]. split; [exact Hmisc|].
  destruct (Hstart ltac:(discriminate)) as [Hle Heq].
  split; [exact Hle|]. apply Heq.
  intros j Hj. change (length _) with 43%nat in Hj.
  do 43 (destruct j as [|j]; [reflexivity|]). lia.
Defined.

(** ** [raw], [dry] and [tidy] without the calibration preconditions *)

(** A [raw()] that builds, spelled out. *)
Lemma raw_inv cc T s :
  sv_size (signature T) < SIZE_MOD - 1 ->
  raw cc T = Ok s ->
  exists L,
    num_appearance cc <> 0 /\
    L = wrap (sv_size (signature T) - num_misc_chars cc) / num_appearance cc /\
    0 <= L /\ L + 1 < SIZE_MOD /\
    (Z.to_nat L <= length (drop (Z.to_nat (name_start_pos cc))
                             (literal (signature T))))%nat /\
    s = filled (L + 1)
          (drop (Z.to_nat (name_start_pos cc)) (literal (signature T)))
          (Z.to_nat L).
Proof.
  intros Hsig. unfold raw. rewrite to_fixed_string_spec by done.
  cbn [bind capacity_ data_].
  replace (sv_size (signature T) + 1 - 1) with (sv_size (signature T)) by lia.
  rewrite (wrap_small (sv_size (signature T))) by (unfold sv_size in *; lia).
  intros H. apply bind_Ok in H as (L & Hdiv & H).
  apply raw_guards in H as (_ & _ & H).
  unfold sz_div in Hdiv.
  destruct (Z.eqb_spec (num_appearance cc) 0) as [|Hna]; [done|].
  assert (HL : L = wrap (sv_size (signature T) - num_misc_chars cc)
                   / num_appearance cc) by congruence.
  clear Hdiv.
  pose proof (wrap_range (sv_size (signature T) - num_misc_chars cc)) as Ha.
  pose proof (wrap_range (sv_size (full_void cc) - sv_size (full_int cc)))
    as Hn. fold (num_appearance cc) in Hn.
  assert (HLr : 0 <= L <= wrap (sv_size (signature T) - num_misc_chars cc)).
  { rewrite HL. split; [apply Z.div_pos; lia|].
    apply Z.div_le_upper_bound; [lia|]. nia. }
  pose proof (wrap_range (L + 1)) as HN.
  rewrite fixed_string_of_ptr_spec in H;
    [|lia|lia|apply sv_find_from_nonneg; lia].
  cbv zeta in H.
  destruct (Z.eqb_spec (wrap (L + 1)) 0) as [|HN0]; [done|]. simpl orb in H.
  assert (HL1 : wrap (L + 1) = L + 1).
  { apply wrap_small. split; [lia|].
    destruct (Z.eq_dec (L + 1) SIZE_MOD) as [He|]; [|lia].
    rewrite He in HN0. by compute in HN0. }
  rewrite HL1 in H.
  replace (Z.to_nat (Z.min L (L + 1 - 1))) with (Z.to_nat L) in H by lia.
  destruct (Nat.ltb_spec
              (length (drop (Z.to_nat (name_start_pos cc))
                         (literal (signature T))))
              (Z.to_nat L)) as [|Hsrc]; [done|].
  exists L. split; [done|]. split; [done|]. split; [lia|].
  split; [rewrite <- HL1; lia|]. split; [done|]. congruence.
Qed.

(** X7. Whatever the calibration constants are, a [raw()] that builds is
    a slice of the signature literal (terminator included) that starts at
    [name_start_pos] and has length
    [(L_T - num_misc_chars) / num_appearance], computed in [std::size_t];
    it fills an array of one more element, and the element at its logical
    length is NUL. *)
Theorem raw_is_terminated_slice (cc : compiler) (T : cxx_type)
    (s : fixed_string_t) :
  sv_size (signature T) < SIZE_MOD - 1 ->
  raw cc T = Ok s ->
  size_ s = wrap (sv_size (signature T) - num_misc_chars cc)
            / num_appearance cc /\
  view s = take (Z.to_nat (size_ s))
             (drop (Z.to_nat (name_start_pos cc)) (literal (signature T))) /\
  Z.of_nat (length (view s)) = size_ s /\
  capacity_ s = size_ s + 1 /\
  data_ s !! Z.to_nat (size_ s) = Some NUL /\
  wf s.
Proof.
  intros Hsig Hraw.
  destruct (raw_inv cc T s Hsig Hraw) as (L & Hna & HL & HL0 & HL1 & Hsrc & ->).
  assert (Hwf : wf (filled (L + 1)
                      (drop (Z.to_nat (name_start_pos cc))
                         (literal (signature T))) (Z.to_nat L)))
    by (apply wf_filled; lia).
  cbn [size_ capacity_ filled]. rewrite Z2Nat.id by lia.
  split; [done|]. split; [by apply view_filled|].
  split; [rewrite length_view by done; simpl; lia|].
  split; [done|]. split; [|done].
  apply filled_terminated; lia.
Qed.

Lemma raw_is_terminated_slice_witness :
  size_ (holding 12 (chars "struct t::S"))
    = wrap (sv_size (msvc_signature "struct t::S") - num_misc_chars sample_msvc)
      / num_appearance sample_msvc /\
  view (holding 12 (chars "struct t::S"))
    = take (Z.to_nat (size_ (holding 12 (chars "struct t::S"))))
        (drop (Z.to_nat (name_start_pos sample_msvc))
           (literal (msvc_signature "struct t::S"))) /\
  Z.of_nat (length (view (holding 12 (chars "struct t::S"))))
    = size_ (holding 12 (chars "struct t::S")) /\
  capacity_ (holding 12 (chars "struct t::S"))
    = size_ (holding 12 (chars "struct t::S")) + 1 /\
  data_ (holding 12 (chars "struct t::S"))
    !! Z.to_nat (size_ (holding 12 (chars "struct t::S"))) = Some NUL /\
  wf (holding 12 (chars "struct t::S")).
Proof.
  apply (raw_is_terminated_slice sample_msvc
           (value_type (msvc_signature "struct t::S"))
           (holding 12 (chars "struct t::S"))).
  - vm_compute. reflexivity.
  - vm_compute. reflexivity.
Defined.

Lemma holding_terminated cap out :
  Z.of_nat (length out) < cap ->
  data_ (holding cap out) !! length out = Some NUL.
Proof.
  intros H. unfold holding. cbn [data_].
  rewrite lookup_app_r by lia. rewrite Nat.sub_diag.
  apply lookup_replicate_2. lia.
Qed.

(** The terminator of [raw()], with no bound on the literal. *)
Lemma raw_terminated cc T s :
  raw cc T = Ok s -> data_ s !! Z.to_nat (size_ s) = Some NUL.
Proof.
  intros Hraw. destruct (raw_wf cc T s Hraw) as [(Hdata & Hcap & Hsize) _].
  unfold raw in Hraw.
  apply bind_Ok in Hraw as (full & _ & Hraw).
  apply bind_Ok in Hraw as (L & _ & Hraw).
  apply raw_guards in Hraw as (_ & _ & Hraw).
  unfold fixed_string_of_ptr in Hraw.
  apply bind_Ok in Hraw as (s0 & _ & Hput).
  unfold put in Hput.
  destruct (Z.ltb_spec (size_ s0) (Z.of_nat (length (data_ s0))));
    [|done].
  injection Hput as <-. cbn [data_ size_] in *.
  apply list_lookup_insert_eq. lia.
Qed.

(** X8. Under GCC and Clang [dry()] is not the length of the name but its
    capacity, one more than the length of what [raw()] and [tidy()]
    return there. *)
Theorem dry_is_capacity_under_gcc (cc : compiler) (T : cxx_type)
    (nm : fixed_string_t) :
  family cc = GCC \/ family cc = Clang ->
  raw cc T = Ok nm ->
  tidy cc T = Ok nm /\
  dry cc T = Ok (size_ nm + 1) /\
  dry cc T = Ok (Z.of_nat (length (view nm)) + 1).
Proof.
  intros Hfam Hraw. destruct (raw_wf cc T nm Hraw) as [Hwf Hfull].
  unfold tidy, dry. rewrite Hraw. cbn [bind].
  rewrite length_view by done.
  replace (size_ nm + 1) with (capacity_ nm) by lia.
  by destruct Hfam as [-> | ->].
Qed.

Lemma dry_is_capacity_under_gcc_witness :
  tidy sample_gcc (value_type (gcc_signature "t::S"))
    = Ok (holding 5 (chars "t::S")) /\
  dry sample_gcc (value_type (gcc_signature "t::S"))
    = Ok (size_ (holding 5 (chars "t::S")) + 1) /\
  dry sample_gcc (value_type (gcc_signature "t::S"))
    = Ok (Z.of_nat (length (view (holding 5 (chars "t::S")))) + 1).
Proof.
  apply (dry_is_capacity_under_gcc sample_gcc
           (value_type (gcc_signature "t::S")) (holding 5 (chars "t::S"))).
  - left. reflexivity.
  - vm_compute. reflexivity.
Defined.

(** What [tidy()] yields ends in a NUL. *)
Lemma tidy_terminated cc T s :
  tidy cc T = Ok s -> data_ s !! Z.to_nat (size_ s) = Some NUL.
Proof.
  intros Htidy. destruct (family cc) eqn:Hfam.
  - unfold tidy in Htidy. rewrite Hfam in Htidy.
    apply bind_Ok in Htidy as (nm & Hraw & [= <-]). by apply (raw_terminated cc T).
  - unfold tidy in Htidy. rewrite Hfam in Htidy.
    apply bind_Ok in Htidy as (nm & Hraw & [= <-]). by apply (raw_terminated cc T).
  - destruct (tidy_msvc_inv cc T s Hfam Htidy) as (nm & _ & _ & Hlt & ->).
    cbn [size_ holding]. rewrite Nat2Z.id. apply holding_terminated. lia.
  - unfold tidy in Htidy. rewrite Hfam in Htidy.
    by apply bind_Ok in Htidy as (nm & _ & ?).
Qed.

(** X9. On every family, the string [name()] returns keeps the invariants
    of a fixed string: its logical length is below its capacity, in fact
    one less, so the array is sized exactly to the name, and the element
    at the logical length is NUL. *)
Theorem name_is_terminated (cc : compiler) (T : cxx_type)
    (s : fixed_string_t) :
  name cc T = Ok s ->
  wf s /\
  capacity_ s = size_ s + 1 /\
  Z.of_nat (length (view s)) = size_ s /\
  data_ s !! Z.to_nat (size_ s) = Some NUL.
Proof.
  intros Hname. unfold name in Hname.
  destruct (tidy_wf cc T s Hname) as [Hwf Hfull].
  split; [done|]. split; [lia|]. split; [by apply length_view|].
  by apply (tidy_terminated cc T).
Qed.

Lemma name_is_terminated_witness :
  wf (holding 5 (chars "t::S")) /\
  capacity_ (holding 5 (chars "t::S")) = size_ (holding 5 (chars "t::S")) + 1 /\
  Z.of_nat (length (view (holding 5 (chars "t::S"))))
    = size_ (holding 5 (chars "t::S")) /\
  data_ (holding 5 (chars "t::S"))
    !! Z.to_nat (size_ (holding 5 (chars "t::S"))) = Some NUL.
Proof.
  apply (name_is_terminated sample_msvc
           (value_type (msvc_signature "struct t::S"))
           (holding 5 (chars "t::S"))).
  vm_compute. reflexivity.
Defined.

(** ** What the scan does to the name *)

Lemma kept_sublist fuel s : kept fuel s `sublist_of` s.
Proof.
  revert s. induction fuel as [|fuel IH]; intros s; cbn [kept].
  - apply sublist_nil_l.
  - destruct (strip_ahead keywords s) as [|n].
    + rewrite <- (take_drop_while iskey s) at 4.
      apply sublist_app; [done|].
      rewrite <- (take_drop_while is_sep (drop_while iskey s)) at 3.
      apply sublist_app; [done|]. apply IH.
    + etrans; [apply IH|]. apply sublist_drop.
Qed.

Lemma stripped_sublist s : stripped s `sublist_of` s.
Proof.
  unfold stripped. etrans; [apply sublist_take|]. apply kept_sublist.
Qed.

(** X10. [name()] only takes characters away: on every family its
    characters are characters of [raw()], in the same order, so it is
    never longer than [raw()]. *)
Theorem name_only_removes (cc : compiler) (T : cxx_type)
    (nm s : fixed_string_t) :
  raw cc T = Ok nm ->
  name cc T = Ok s ->
  view s `sublist_of` view nm /\ size_ s <= size_ nm.
Proof.
  intros Hraw Hname. unfold name in Hname.
  assert (Hsub : view s `sublist_of` view nm).
  { destruct (family cc) eqn:Hfam.
    - unfold tidy in Hname. rewrite Hraw, Hfam in Hname.
      by injection Hname as <-.
    - unfold tidy in Hname. rewrite Hraw, Hfam in Hname.
      by injection Hname as <-.
    - destruct (tidy_msvc_inv cc T s Hfam Hname) as (nm' & Hraw' & _ & Hlt & ->).
      assert (nm' = nm) by congruence. subst nm'.
      rewrite view_holding by lia. apply stripped_sublist.
    - unfold tidy in Hname. rewrite Hraw, Hfam in Hname. done. }
  split; [done|].
  destruct (raw_wf cc T nm Hraw) as [Hwf1 _].
  destruct (tidy_wf cc T s Hname) as [Hwf2 _].
  apply sublist_length in Hsub.
  rewrite <- (length_view s), <- (length_view nm) by done. lia.
Qed.

Lemma name_only_removes_witness :
  view (holding 17 (chars "t::E (t::C,t::S)"))
    `sublist_of`
    view (holding 42 (chars "enum t::E __cdecl(class t::C,struct t::S)")) /\
  size_ (holding 17 (chars "t::E (t::C,t::S)"))
    <= size_ (holding 42 (chars "enum t::E __cdecl(class t::C,struct t::S)")).
Proof.
  apply (name_only_removes sample_msvc
           (value_type
              (msvc_signature "enum t::E __cdecl(class t::C,struct t::S)"))).
  - vm_compute. reflexivity.
  - vm_compute. reflexivity.
Defined.

Lemma trailing_spaces_last l :
  last l <> Some SPACE -> trailing_spaces l = 0%nat.
Proof.
  induction l as [|c l _] using rev_ind; [done|].
  rewrite last_snoc, trailing_spaces_snoc. intros Hc.
  unfold is_space. destruct (Ascii.eqb c SPACE) eqn:He; [|done].
  apply Ascii.eqb_eq in He. congruence.
Qed.

(** X11. Under MSVC, [name()] builds for every raw name that does not end
    in a space, and [dry()] then returns its length. *)
Theorem name_builds_without_trailing_space (cc : compiler) (T : cxx_type)
    (nm : fixed_string_t) :
  family cc = MSVC ->
  raw cc T = Ok nm ->
  last (view nm) <> Some SPACE ->
  exists s, name cc T = Ok s /\ dry cc T = Ok (size_ s).
Proof.
  intros Hfam Hraw Hlast.
  destruct (raw_wf cc T nm Hraw) as [Hwf Hfull].
  destruct (msvc_passes nm Hwf Hfull) as (L & Hdry & Hok & _).
  assert (Hne : L <> npos).
  { pose proof Hwf as (Hdata & Hcap & Hsize).
    pose proof Hdry as Hval.
    rewrite dry_msvc_spec in Hval by (done || lia).
    rewrite (text_view _ Hfull), (trailing_spaces_last _ Hlast) in Hval.
    pose proof (length_kept (S (length (view nm))) (view nm)) as Hk.
    pose proof (length_view nm Hwf) as Hlv.
    rewrite Z.sub_0_r, wrap_small in Hval by lia.
    assert (HL : forall a b : Z, Ok a = Ok b -> a = b) by (by intros a b [=]).
    apply HL in Hval. rewrite npos_eq. lia. }
  destruct (Hok Hne) as [HL Ht].
  unfold name, tidy, dry. rewrite Hraw, Hfam. cbn [bind].
  eexists. split; [exact Ht|]. rewrite Hdry. cbn [size_ holding]. by rewrite <- HL.
Qed.

Lemma name_builds_without_trailing_space_witness :
  exists s,
    name sample_msvc (value_type (msvc_signature "struct t::S")) = Ok s /\
    dry sample_msvc (value_type (msvc_signature "struct t::S"))
      = Ok (size_ s).
Proof.
  apply (name_builds_without_trailing_space sample_msvc
           (value_type (msvc_signature "struct t::S"))
           (holding 12 (chars "struct t::S"))).
  - reflexivity.
  - vm_compute. reflexivity.
  - vm_compute. discriminate.
Defined.

Lemma forallb_false_elem {A} (f : A -> bool) (l : list A) :
  forallb f l = false -> exists x, x ∈ l /\ f x = false.
Proof.
  induction l as [|a l IH]; cbn [forallb]; [done|].
  intros H. apply andb_false_iff in H as [H|H].
  - exists a. split; [apply list_elem_of_here|done].
  - destruct (IH H) as (x & Hin & Hx). exists x.
    split; [by apply list_elem_of_further|done].
Qed.

(** A text with no whole-word keyword passes the test. *)
Lemma keyword_free_complete b l :
  keyword_free b l = false ->
  exists pre kw post,
    kw ∈ keywords /\ l = pre ++ kw ++ post /\
    match last pre with None => b = false | Some p => iskey p = false end /\
    (post = [] \/ exists d post', post = d :: post' /\ iskey d = false).
Proof.
  revert b. induction l as [|c l IH]; intros b H; [done|].
  cbn [keyword_free] in H. apply andb_false_iff in H as [H|H].
  - apply orb_false_iff in H as [-> H].
    assert (Hex : exists kw, kw ∈ keywords /\ word_at kw (c :: l) = true).
    { apply forallb_false_elem in H as (kw & Hin & Hw).
      exists kw. split; [done|]. by apply negb_false_iff. }
    destruct Hex as (kw & Hin & Hw).
    unfold word_at in Hw. apply andb_true_iff in Hw as [Hs Hnext].
    apply starts_with_prefix in Hs.
    exists [], kw, (drop (length kw) (c :: l)).
    split; [done|]. split; [done|]. split; [done|].
    destruct (drop (length kw) (c :: l)) as [|d tl]; [by left|].
    right. exists d, tl. split; [done|]. by apply negb_true_iff.
  - destruct (IH _ H) as (pre & kw & post & Hin & -> & Hlast & Hpost).
    exists (c :: pre), kw, post.
    split; [done|]. split; [done|]. split; [|done].
    rewrite last_cons. by destruct (last pre).
Qed.

Lemma no_whole_word_keyword_free l :
  (forall kw, kw ∈ keywords -> ~ whole_word kw l) ->
  keyword_free false l = true.
Proof.
  intros Hno. destruct (keyword_free false l) eqn:H; [done|].
  apply keyword_free_complete in H
    as (pre & kw & post & Hin & -> & Hlast & Hpost).
  exfalso. apply (Hno kw Hin). exists pre, post. split; [done|].
  split; [|done].
  destruct (last pre) as [p|] eqn:Hl.
  - right. apply last_Some in Hl as [pre' ->]. by exists pre', p.
  - left. by apply last_None.
Qed.

(** An object that fills its array and ends in NUL is what [holding]
    builds. *)
Lemma terminated_is_holding s :
  wf s -> size_ s = capacity_ s - 1 ->
  data_ s !! Z.to_nat (size_ s) = Some NUL ->
  s = holding (capacity_ s) (view s).
Proof.
  intros (Hdata & Hcap & Hsize) Hfull Hnul.
  destruct s as [cap data size]. cbn [capacity_ data_ size_] in *.
  unfold holding, view. cbn [data_ size_]. f_equal.
  - rewrite length_take.
    replace (Z.to_nat cap - Z.to_nat size `min` length data)%nat with 1%nat
      by lia.
    rewrite <- (take_drop (Z.to_nat size) data) at 1. f_equal.
    rewrite (drop_S _ _ _ Hnul). rewrite drop_ge by lia. done.
  - rewrite length_take. lia.
Qed.

(** X12. Under MSVC, a raw name that holds no decoration keyword as a
    whole word and does not end in a space comes out of [name()] as it
    is: [name()] returns the very object [raw()] returns. *)
Theorem name_keeps_plain_names (cc : compiler) (T : cxx_type)
    (nm : fixed_string_t) :
  family cc = MSVC ->
  raw cc T = Ok nm ->
  (forall kw, kw ∈ keywords -> ~ whole_word kw (view nm)) ->
  last (view nm) <> Some SPACE ->
  name cc T = Ok nm.
Proof.
  intros Hfam Hraw Hno Hlast.
  destruct (raw_wf cc T nm Hraw) as [Hwf Hfull].
  pose proof (raw_terminated cc T nm Hraw) as Hnul.
  pose proof (terminated_is_holding nm Hwf Hfull Hnul) as Hnm.
  pose proof Hwf as (Hdata & Hcap & Hsize).
  pose proof (length_view nm Hwf) as Hlv.
  assert (Hkept : kept (S (length (view nm))) (view nm) = view nm)
    by (apply kept_keyword_free_id; [by apply no_whole_word_keyword_free|lia]).
  assert (Hsame : stripped (view nm) = view nm).
  { unfold stripped. rewrite Hkept, (trailing_spaces_last _ Hlast).
    rewrite Nat.sub_0_r. apply take_ge. lia. }
  destruct (msvc_passes nm Hwf Hfull) as (L & Hdry & Hok & _).
  rewrite Hsame in Hok.
  assert (Hne : L <> npos).
  { pose proof Hdry as Hval.
    rewrite dry_msvc_spec in Hval by (done || lia).
    rewrite (text_view _ Hfull), Hkept, (trailing_spaces_last _ Hlast) in Hval.
    rewrite Z.sub_0_r, wrap_small in Hval by lia.
    assert (HL : forall a b : Z, Ok a = Ok b -> a = b) by (by intros a b [=]).
    apply HL in Hval. rewrite npos_eq. lia. }
  destruct (Hok Hne) as [HL Ht].
  unfold name, tidy. rewrite Hraw, Hfam. cbn [bind]. rewrite Ht.
  f_equal. replace (L + 1) with (capacity_ nm) by lia. by symmetry.
Qed.

Lemma name_keeps_plain_names_witness :
  name sample_msvc (value_type (msvc_signature "int"))
  = Ok (holding 4 (chars "int")).
Proof.
  apply (name_keeps_plain_names sample_msvc
           (value_type (msvc_signature "int")) (holding 4 (chars "int"))).
  - reflexivity.
  - vm_compute. reflexivity.
  - intros kw Hin. apply keyword_free_no_whole_word; [|done].
    vm_compute. reflexivity.
  - vm_compute. discriminate.
Defined.

(** X13. Under MSVC, scanning the output of [tidy()] once more returns
    the same object, provided that output does not end in a space. *)
Theorem tidy_is_fixed_without_trailing_space (cc : compiler) (T : cxx_type)
    (d1 : fixed_string_t) :
  family cc = MSVC ->
  tidy cc T = Ok d1 ->
  last (view d1) <> Some SPACE ->
  tidy_msvc d1 = Ok d1.
Proof.
  intros Hfam Htidy Hlast. apply (tidy_msvc_again cc T); [done|done|].
  by apply trailing_spaces_last.
Qed.

Lemma tidy_is_fixed_without_trailing_space_witness :
  tidy_msvc (holding 17 (chars "t::E (t::C,t::S)"))
  = Ok (holding 17 (chars "t::E (t::C,t::S)")).
Proof.
  apply (tidy_is_fixed_without_trailing_space sample_msvc
           (value_type
              (msvc_signature "enum t::E __cdecl(class t::C,struct t::S)"))).
  - reflexivity.
  - vm_compute. reflexivity.
  - vm_compute. discriminate.
Defined.

(** ** [base] as a whole *)

(** X14. Whenever [name()] builds, [base()] builds too, for every type:
    its characters are a suffix of those of [name()], it fills its array
    but for the terminating NUL, and it is never longer than [name()]. *)
Theorem base_is_terminated_suffix (cc : compiler) (T : cxx_type)
    (nm : fixed_string_t) :
  name cc T = Ok nm ->
  exists b,
    base cc T = Ok b /\
    view b `suffix_of` view nm /\
    size_ b <= size_ nm /\
    wf b /\ capacity_ b = size_ b + 1 /\
    data_ b !! Z.to_nat (size_ b) = Some NUL.
Proof.
  intros Hname. unfold name in Hname.
  destruct (tidy_wf cc T nm Hname) as [Hwf Hfull].
  pose proof (tidy_terminated cc T nm Hname) as Hnul.
  assert (Hsame : exists b, Ok nm = Ok b /\
            view b `suffix_of` view nm /\ size_ b <= size_ nm /\
            wf b /\ capacity_ b = size_ b + 1 /\
            data_ b !! Z.to_nat (size_ b) = Some NUL).
  { exists nm. split; [done|]. split; [done|]. split; [lia|].
    split; [done|]. split; [lia|done]. }
  unfold base. destruct (qualified_or_compound T); rewrite Hname; [done|].
  cbn [bind].
  destruct (rfind_spec nm COLON Hwf) as (r & Hr & Hin & Hnot & _).
  rewrite Hr. cbn [bind].
  pose proof Hwf as (Hdata & Hcap & Hsize).
  destruct (decide (COLON ∈ view nm)) as [Hyes|Hno].
  - destruct (Hin Hyes) as (Hrange & Hat & Hafter).
    destruct (Z.eqb_spec r npos) as [He|_]; [rewrite npos_eq in He; lia|].
    rewrite (wrap_small (capacity_ nm - r)) by lia.
    rewrite (wrap_small (capacity_ nm - r - 1)) by lia.
    rewrite fixed_string_of_ptr_spec by lia. cbv zeta.
    destruct (Z.eqb_spec (capacity_ nm - r - 1) 0); [lia|]. simpl orb.
    assert (Hsrc : length (drop (Z.to_nat (r + 1)) (data_ nm))
                   = Z.to_nat (capacity_ nm - r - 1))
      by (rewrite length_drop; lia).
    replace (Z.min (capacity_ nm - r - 1) (capacity_ nm - r - 1 - 1))
      with (capacity_ nm - r - 2) by lia.
    destruct (Nat.ltb_spec (length (drop (Z.to_nat (r + 1)) (data_ nm)))
                (Z.to_nat (capacity_ nm - r - 2))); [lia|].
    eexists. split; [reflexivity|].
    rewrite view_filled by lia.
    assert (Hview : take (Z.to_nat (capacity_ nm - r - 2))
                      (drop (Z.to_nat (r + 1)) (data_ nm))
                    = drop (S (Z.to_nat r)) (view nm)).
    { unfold view. rewrite take_drop_commute. f_equal; [lia|].
      f_equal. lia. }
    rewrite Hview. split; [apply suffix_drop|].
    cbn [size_ capacity_ filled]. split; [lia|].
    split; [apply wf_filled; lia|]. split; [lia|].
    rewrite Nat2Z.id. apply filled_terminated; lia.
  - rewrite (Hnot Hno), Z.eqb_refl. done.
Qed.

Lemma base_is_terminated_suffix_witness :
  exists b,
    base sample_msvc (value_type (msvc_signature "struct t::S")) = Ok b /\
    view b `suffix_of` view (holding 5 (chars "t::S")) /\
    size_ b <= size_ (holding 5 (chars "t::S")) /\
    wf b /\ capacity_ b = size_ b + 1 /\
    data_ b !! Z.to_nat (size_ b) = Some NUL.
Proof.
  apply (base_is_terminated_suffix sample_msvc
           (value_type (msvc_signature "struct t::S"))
           (holding 5 (chars "t::S"))).
  vm_compute. reflexivity.
Defined.
